(** * vite-plugin-zip: the option resolver, the archive assembler and the
    size formatter of [src/index.ts], embedded in Rocq.

    The plugin packs a build's output directory into a zip archive once the
    build has completed.  Three collaborators are outside the repository and
    are represented by what the plugin can observe of them:
    - the file system, a list of directory entries with their data, in which
      a write stream opens its file after the synchronous body has run, or
      fails to;
    - the glob primitive [fs.globSync], which walks that list with a pattern
      matcher supplied by the host (class [Host]) and does not enter a
      directory an exclude pattern matches;
    - the archive engine [archiver], a queue of entry commands that is turned
      into zip entries (files, directories and links, under sanitized names)
      once the archive is finalized. *)

From Stdlib Require Import String Ascii List Bool Arith NArith ZArith QArith Qround Lia.
Import ListNotations.
Open Scope string_scope.
Open Scope list_scope.

(* ================================================================== *)
(** * Paths ([node:path], POSIX flavour) *)
(* ================================================================== *)

(** An absolute, normalised path is the list of its components below the
    file-system root; relative paths and archive entry names stay strings. *)
Definition Path := list string.

(** [split_slash cur s] cuts [s] at every ["/"]; [cur] is the component being
    read. *)
Fixpoint split_slash (cur s : string) : list string :=
  match s with
  | EmptyString => [cur]
  | String c rest =>
      if Ascii.eqb c "/" then cur :: split_slash "" rest
      else split_slash (cur ++ String c "")%string rest
  end.

Definition segments (s : string) : list string := split_slash "" s.

(** One step of [path.normalize]: empty components and ["."] are dropped,
    [".."] removes the component before it (and is dropped at the root). *)
Definition push_segment (p : Path) (seg : string) : Path :=
  if String.eqb seg "" then p
  else if String.eqb seg "." then p
  else if String.eqb seg ".." then removelast p
  else p ++ [seg].

(** [path.join(base, rel)] for an absolute [base]. *)
Definition path_join (base : Path) (rel : string) : Path :=
  fold_left push_segment (segments rel) base.

(** A path string read as an absolute path. *)
Definition path_resolve (s : string) : Path := path_join [] s.

Fixpoint strip_common (from to : Path) : Path * Path :=
  match from, to with
  | f :: from', t :: to' =>
      if String.eqb f t then strip_common from' to' else (from, to)
  | _, _ => (from, to)
  end.

(** [path.relative(from, to)]: one [".."] per component of [from] below the
    common prefix, then what is left of [to], separated by ["/"]. *)
Definition path_relative (from to : Path) : string :=
  let '(up, down) := strip_common from to in
  String.concat "/" (map (fun _ => "..") up ++ down).

Fixpoint path_eqb (p q : Path) : bool :=
  match p, q with
  | [], [] => true
  | a :: p', b :: q' => String.eqb a b && path_eqb p' q'
  | _, _ => false
  end.

(** [strip_prefix dir p] is what [p] has below [dir], when it lies there. *)
Fixpoint strip_prefix (dir p : Path) : option Path :=
  match dir, p with
  | [], _ => Some p
  | d :: dir', a :: p' => if String.eqb d a then strip_prefix dir' p' else None
  | _ :: _, [] => None
  end.

(** A path component as [path.normalize] leaves it: no separator in it, and
    neither empty nor a dot name. *)
Fixpoint has_no_slash (s : string) : bool :=
  match s with
  | EmptyString => true
  | String c rest => negb (Ascii.eqb c "/") && has_no_slash rest
  end.

Definition is_component (s : string) : bool :=
  has_no_slash s
  && negb (String.eqb s "") && negb (String.eqb s ".") && negb (String.eqb s "..").

Definition components (p : Path) : Prop := Forall (fun x => is_component x = true) p.

(** The pieces [path.relative(from, to)] is joined from: the string is their
    concatenation with ["/"]. *)
Definition relative_segments (from to : Path) : list string :=
  let '(up, down) := strip_common from to in
  map (fun _ => "..") up ++ down.

(** The leading parts of a list, from the empty one to the list itself. *)
Fixpoint prefixes {A : Type} (l : list A) : list (list A) :=
  match l with
  | [] => [[]]
  | x :: l' => [] :: map (cons x) (prefixes l')
  end.

Fixpoint has_no_backslash (s : string) : bool :=
  match s with
  | EmptyString => true
  | String c rest => negb (Ascii.eqb c "\") && has_no_backslash rest
  end.

Fixpoint has_no_colon (s : string) : bool :=
  match s with
  | EmptyString => true
  | String c rest => negb (Ascii.eqb c ":") && has_no_colon rest
  end.

(** Components that read the same under POSIX and under Windows: none holds
    a backslash. *)
Definition portable (p : Path) : bool :=
  forallb (fun x => is_component x && has_no_backslash x) p.

(** A relative path that neither is empty nor can be taken to start with a
    drive: portable components, the first one without a colon. *)
Definition plain (p : Path) : bool :=
  match p with
  | [] => false
  | x :: _ => portable p && has_no_colon x
  end.

(** The absolute path [p] as a string. *)
Definition path_string (p : Path) : string :=
  ("/" ++ String.concat "/" p)%string.

(* ================================================================== *)
(** * Errors *)
(* ================================================================== *)

(** An error object, with its [code] when it has one. *)
Record Err := { code : option string; message : string }.

Definition ENOENT : Err := {| code := Some "ENOENT"; message := "no such file or directory" |}.

Definition ENOTDIR : Err := {| code := Some "ENOTDIR"; message := "not a directory" |}.

Definition EISDIR : Err :=
  {| code := Some "EISDIR"; message := "illegal operation on a directory" |}.

(* ================================================================== *)
(** * Directory entries and the file system *)
(* ================================================================== *)

Inductive FileType := RegularFile | DirectoryType | SymbolicLink | OtherType.

(** [fs.Dirent], as [globSync] returns it with [withFileTypes: true]. *)
Record Dirent := {
  name : string;
  parentPath : Path;
  fileType : FileType
}.

Definition isFile (d : Dirent) : bool :=
  match fileType d with RegularFile => true | _ => false end.

(** [path.join(dirEnt.parentPath, dirEnt.name)] *)
Definition dirent_path (d : Dirent) : Path := path_join (parentPath d) (name d).

(** An entry with what it holds: the bytes of a regular file, the target of
    a link. *)
Record FsEntry := { dirent : Dirent; data : string }.

(** The file system is the list of the entries that matter to a build, each
    under its real path (no link on the way to it).  The directories above a
    listed entry need not be listed themselves. *)
Definition FS := list FsEntry.

Definition entry_path (e : FsEntry) : Path := dirent_path (dirent e).

(** The entry found at a path, if there is one. *)
Definition lookup (p : Path) (fs : FS) : option FsEntry :=
  find (fun e => path_eqb (entry_path e) p) fs.

(** [p] lies below [dir], and is not [dir] itself. *)
Definition below (dir p : Path) : bool :=
  match strip_prefix dir p with
  | Some (_ :: _) => true
  | _ => false
  end.

(** [p] is a directory: it is listed as one, or it is not listed and is the
    root or lies above a listed entry. *)
Definition is_directory (p : Path) (fs : FS) : bool :=
  match lookup p fs with
  | Some e =>
      match fileType (dirent e) with DirectoryType => true | _ => false end
  | None =>
      match p with
      | [] => true
      | _ :: _ => existsb (fun e => below p (entry_path e)) fs
      end
  end.

(** The file a write stream opens, as an entry of the file system. *)
Definition opened (p : Path) : FsEntry :=
  {| dirent := {| name := last p ""; parentPath := removelast p;
                  fileType := RegularFile |};
     data := "" |}.

(** The file system with an empty regular file at [p]. *)
Definition truncated (p : Path) (fs : FS) : FS :=
  filter (fun e => negb (path_eqb (entry_path e) p)) fs ++ [opened p].

(** Opening a path with flag ["w"].  A regular file that is there is
    truncated; a directory cannot be opened for writing; through a link or
    into a device the bytes go elsewhere, and nothing changes at [p].  Where
    nothing is, the file is created, which takes a directory to create it
    in: behind a link in its place the file is created elsewhere, and
    nothing changes among the listed entries; a file in its place, or
    nothing at all, fails the opening. *)
Definition open_for_write (p : Path) (fs : FS) : FS + Err :=
  match lookup p fs with
  | Some e =>
      match fileType (dirent e) with
      | RegularFile => inl (truncated p fs)
      | DirectoryType => inr EISDIR
      | SymbolicLink | OtherType => inl fs
      end
  | None =>
      if existsb (fun e => below p (entry_path e)) fs then inr EISDIR
      else if is_directory (removelast p) fs then inl (truncated p fs)
      else
        match lookup (removelast p) fs with
        | Some dir =>
            match fileType (dirent dir) with
            | SymbolicLink => inl fs
            | _ => inr ENOTDIR
            end
        | None => inr ENOENT
        end
  end.


(* ================================================================== *)
(** * A concrete pattern matcher *)
(* ================================================================== *)

(** A small glob matcher, used where a closed example needs one: within a
    component ["*"] stands for any run of characters, and the component
    ["**"] for any number of components. *)
Fixpoint seg_match (p : string) : string -> bool :=
  match p with
  | EmptyString => fun s => match s with EmptyString => true | _ => false end
  | String c p' =>
      if Ascii.eqb c "*" then
        fix star (s : string) : bool :=
          seg_match p' s
          || match s with EmptyString => false | String _ s' => star s' end
      else
        fun s =>
          match s with
          | EmptyString => false
          | String d s' => Ascii.eqb c d && seg_match p' s'
          end
  end.

Fixpoint segs_match (ps : list string) : list string -> bool :=
  match ps with
  | [] => fun ss => match ss with [] => true | _ => false end
  | p :: ps' =>
      if String.eqb p "**" then
        fix any (ss : list string) : bool :=
          segs_match ps' ss
          || match ss with [] => false | _ :: ss' => any ss' end
      else
        fun ss =>
          match ss with
          | [] => false
          | s :: ss' => seg_match p s && segs_match ps' ss'
          end
  end.

Definition simple_glob (pattern rel : string) : bool :=
  segs_match (segments pattern) (segments rel).

(* ================================================================== *)
(** * Numbers as text ([Number.prototype.toFixed]) *)
(* ================================================================== *)

(** A byte count is an integer-valued JavaScript number.  Dividing such a
    number by 1024 only lowers its binary exponent, so the arithmetic of
    [formatFileSize] is exact and is carried out on rationals. *)

Definition digit (d : N) : ascii := ascii_of_N (48 + d).

Fixpoint digits_from (fuel : nat) (n : N) (acc : string) : string :=
  match fuel with
  | O => acc
  | S fuel' =>
      let acc' := String (digit (n mod 10)) acc in
      if (n / 10 =? 0)%N then acc' else digits_from fuel' (n / 10) acc'
  end.

(** The decimal digits of [n]; ["0"] for zero.  A number has no more decimal
    digits than binary ones. *)
Definition decimal (n : N) : string :=
  digits_from (S (N.to_nat (N.log2 n))) n "".

Fixpoint zeros (k : nat) : string :=
  match k with O => "" | S k' => String "0" (zeros k') end.

(** The integer [n] for which [n - x] is closest to zero, the larger one when
    there are two. *)
Definition round_half_up (x : Q) : Z := Qfloor (x + (1 # 2)).

(** The double nearest to the rational [v] (ties to the even significand),
    for [v] of magnitude at least [2^52], where doubles are integers. *)
Definition to_double (v : Q) : Z :=
  let a := Qnum v in
  let b := Zpos (Qden v) in
  let e := Z.log2 (a / b) in
  let ulp := (2 ^ (e - 52))%Z in
  let q := (a / (b * ulp))%Z in
  let r := (a mod (b * ulp))%Z in
  let m :=
    if (2 * r <? b * ulp)%Z then q
    else if (b * ulp <? 2 * r)%Z then (q + 1)%Z
    else if Z.even q then q else (q + 1)%Z in
  (m * ulp)%Z.

(** The pairs [(n, s)] with [k] digits in [s] for which [s * 10^(n-k)] reads
    back as the double [X]; [n0] is the number of digits of [X]. *)
Definition round_trips (X n0 k : Z) : list (Z * Z) :=
  let lo := (X / 10 ^ (n0 - k))%Z in
  filter
    (fun ns : Z * Z =>
       let '(n, s) := ns in
       (10 ^ (k - 1) <=? s)%Z && (s <? 10 ^ k)%Z
       && (to_double (inject_Z (s * 10 ^ (n - k))) =? X)%Z)
    [ (n0, lo); (n0, (lo + 1)%Z); ((n0 + 1)%Z, (10 ^ (k - 1))%Z) ].

(** Among several candidates, the one closest to [X]; the even [s] on a tie. *)
Definition closer (X k : Z) (a b : Z * Z) : Z * Z :=
  let dist := fun ns : Z * Z => Z.abs (snd ns * 10 ^ (fst ns - k) - X) in
  if (dist a <? dist b)%Z then a
  else if (dist b <? dist a)%Z then b
  else if Z.even (snd a) then a else b.

Definition closest (X k : Z) (l : list (Z * Z)) : option (Z * Z) :=
  match l with
  | [] => None
  | c :: l' => Some (fold_left (closer X k) l' c)
  end.

(** The smallest [k] (from [k] on, at most [fuel] tries) with a candidate. *)
Fixpoint shortest (fuel : nat) (X n0 k : Z) : Z * (Z * Z) :=
  match fuel with
  | O => (k, (n0, (X / 10 ^ (n0 - k))%Z))
  | S fuel' =>
      match closest X k (round_trips X n0 k) with
      | Some ns => (k, ns)
      | None => shortest fuel' X n0 (k + 1)%Z
      end
  end.

(** [Number::toString] in the range [toFixed] hands over to it, [x >= 10^21],
    where the result is always in exponent notation. *)
Definition Number_toString (x : Q) : string :=
  let X := to_double x in
  let n0 := Z.of_nat (String.length (decimal (Z.to_N X))) in
  let '(k, (n, s)) := shortest 17 X n0 1 in
  let ds := decimal (Z.to_N s) in
  let e := decimal (Z.to_N (n - 1)) in
  match ds with
  | String d EmptyString => (String d "" ++ "e+" ++ e)%string
  | String d rest => (String d "" ++ "." ++ rest ++ "e+" ++ e)%string
  | EmptyString => ""
  end.

(** [x.toFixed(f)]: the sign, then the magnitude; in exponent notation from
    [10^21] on, and otherwise the nearest multiple of [10^-f], its digits
    padded with zeros to [f + 1] places and cut [f] places from the right. *)
Definition toFixed (x : Q) (fractionDigits : nat) : string :=
  let f := fractionDigits in
  let '(s, x) := if Qle_bool 0 x then ("", x) else ("-", Qopp x) in
  let m :=
    if Qle_bool (inject_Z (10 ^ 21)) x then Number_toString x
    else
      let n := Z.to_N (round_half_up (x * inject_Z (10 ^ Z.of_nat f))) in
      let m := decimal n in
      if (f =? 0)%nat then m
      else
        let k := String.length m in
        let m := if (k <=? f)%nat then (zeros (f + 1 - k) ++ m)%string else m in
        let k := String.length m in
        (substring 0 (k - f) m ++ "." ++ substring (k - f) f m)%string in
  (s ++ m)%string.

(* ================================================================== *)
(** * [formatFileSize] *)
(* ================================================================== *)

Definition units : list string := ["B"; "KB"; "MB"; "GB"; "TB"].

(** The [while] loop of [formatFileSize]; every turn raises [index], which
    stays below [units.length - 1], so [units.length] turns are enough. *)
Fixpoint scale_loop (fuel : nat) (size : Q) (index : nat) : Q * nat :=
  match fuel with
  | O => (size, index)
  | S fuel' =>
      if Qle_bool 1024 size && (index <? List.length units - 1)%nat
      then scale_loop fuel' (size / 1024) (S index)
      else (size, index)
  end.

Definition formatFileSize (size : Q) : string :=
  let '(size, index) := scale_loop (List.length units) size 0 in
  (toFixed size 2 ++ " " ++ nth index units "undefined")%string.

(** The reading of the size formatter in the specification: the byte
    count [n] in the unit number [index] is [n / 1024^index]; the
    hundredths of that value, rounded to the nearest (upwards on a tie), are
    printed as an integer part, a point and two digits. *)
Definition hundredths (n : N) (index : nat) : N :=
  ((200 * n + 1024 ^ N.of_nat index) / (2 * 1024 ^ N.of_nat index))%N.

Definition two_decimals (h : N) : string :=
  (decimal (h / 100) ++ "."
   ++ String (digit ((h / 10) mod 10)) (String (digit (h mod 10)) ""))%string.

(** The value after [k] divisions by 1024. *)
Fixpoint scaled (z : Z) (k : nat) : Q :=
  match k with
  | O => inject_Z z
  | S k' => (scaled z k' / 1024)%Q
  end.

(* ================================================================== *)
(** * The archive engine *)
(* ================================================================== *)

(** What can be asked of an [archiver] handle before it is finalized. *)
Inductive ArchiveCmd :=
| File (filepath : Path) (entryName : string)
    (* archive.file(filepath, { name }) *)
| Directory (dirpath : Path) (destpath : string)
    (* archive.directory(dirpath, destpath) *)
| Append (source : string) (entryName : string).
    (* archive.append(source, { name }) *)

(** An entry of the finished zip: its name, the file-system entry it was
    made of (none for appended content) and its bytes.  A directory is an
    entry whose name ends in ["/"], without bytes; a link is an entry whose
    bytes are its target. *)
Record ZipEntry := {
  entryName : string;
  backing : option Path;
  content : string
}.

Definition dest_name (destpath rel : string) : string :=
  if String.eqb destpath "" then rel else (destpath ++ "/" ++ rel)%string.

(* ------------------------------------------------------------------ *)
(** ** Entry names *)

Definition is_sep (c : ascii) : bool := Ascii.eqb c "/" || Ascii.eqb c "\".

(** [s.split(/[/\\]+/)]: [cur] is the piece being read, and [run] tells
    whether the character before was a separator. *)
Fixpoint split_seps (cur : string) (run : bool) (s : string) : list string :=
  match s with
  | EmptyString => [cur]
  | String c rest =>
      if is_sep c then
        if run then split_seps cur true rest
        else cur :: split_seps "" true rest
      else split_seps (cur ++ String c "")%string false rest
  end.

(** [\w] *)
Definition is_word (c : ascii) : bool :=
  let n := nat_of_ascii c in
  ((48 <=? n)%nat && (n <=? 57)%nat) || ((65 <=? n)%nat && (n <=? 90)%nat)
  || ((97 <=? n)%nat && (n <=? 122)%nat) || (n =? 95)%nat.

Fixpoint after_word (s : string) : string :=
  match s with
  | EmptyString => s
  | String c rest => if is_word c then after_word rest else s
  end.

(** [s.replace(/^\w+:/, "")] *)
Definition strip_drive (s : string) : string :=
  match s with
  | EmptyString => s
  | String c rest =>
      if is_word c then
        match after_word rest with
        | EmptyString => s
        | String d tail => if Ascii.eqb d ":" then tail else s
        end
      else s
  end.

(** [s.replace(/^(\.\.\/|\/)+/, "")] *)
Fixpoint strip_up (s : string) : string :=
  match s with
  | EmptyString => s
  | String c1 r1 =>
      if Ascii.eqb c1 "/" then strip_up r1
      else if Ascii.eqb c1 "." then
        match r1 with
        | String c2 (String c3 r3) =>
            if Ascii.eqb c2 "." && Ascii.eqb c3 "/" then strip_up r3 else s
        | _ => s
        end
      else s
  end.

(** [sanitizePath] of the engine's utilities: separators of either kind
    become single slashes, then a leading drive and the leading slashes and
    [../] are cut.  (The path normaliser it calls treats one-character paths
    and the prefix of a Windows namespace apart; once the leading slashes are
    cut the result is the same.) *)
Definition sanitizePath (s : string) : string :=
  strip_up (strip_drive (String.concat "/" (split_seps "" false s))).

(** The name an entry is stored under.  The name asked for goes through
    [sanitizePath] in each of the engine's three layers: the archiver, its
    zip stream and the entry object. *)
Definition stored_name (nm : string) : string :=
  sanitizePath (sanitizePath (sanitizePath nm)).

Fixpoint ends_with_slash (s : string) : bool :=
  match s with
  | EmptyString => false
  | String c EmptyString => Ascii.eqb c "/"
  | String _ rest => ends_with_slash rest
  end.

Definition trailingSlashIt (s : string) : string :=
  if ends_with_slash s then s else (s ++ "/")%string.

Definition starts_with_slash (s : string) : bool :=
  match s with String c _ => Ascii.eqb c "/" | EmptyString => false end.

(** The target a link entry stores: the link's target, relative to the
    directory of the link. *)
Definition linkname (p : Path) (target : string) : string :=
  let dir := removelast p in
  path_relative dir
    (if starts_with_slash target then path_resolve target
     else path_join dir target).

(* ------------------------------------------------------------------ *)
(** ** Entries *)

(** The entry the engine makes of the file-system entry [e] when it is asked
    for under the name [nm]: a regular file with its bytes, a directory with
    a slash after its name, a link with its target.  Anything else is not
    supported, and no entry can have an empty name. *)
Definition entry_of (e : FsEntry) (nm : string) : list ZipEntry :=
  let made := fun (nm bytes : string) =>
    if String.eqb (stored_name nm) "" then []
    else [ {| entryName := stored_name nm; backing := Some (entry_path e);
              content := bytes |} ] in
  match fileType (dirent e) with
  | RegularFile => made nm (data e)
  | DirectoryType => made (trailingSlashIt nm) ""
  | SymbolicLink => made nm (linkname (entry_path e) (data e))
  | OtherType => []
  end.

(** The name a file command asks for: the path itself when no name is
    given. *)
Definition file_name (p : Path) (nm : string) : string :=
  if String.eqb nm "" then path_string p else nm.

(** The entries one command yields when the engine carries it out on [fs].
    A [File] whose path is gone yields none (the engine warns instead); a
    [Directory] yields every entry below [dirpath], sub-directories and links
    included, named by [destpath] and the entry's path below [dirpath]. *)
Definition entries_of_cmd (fs : FS) (c : ArchiveCmd) : list ZipEntry :=
  match c with
  | File p nm =>
      match lookup p fs with
      | Some e => entry_of e (file_name p nm)
      | None => []
      end
  | Directory dir dest =>
      flat_map
        (fun e =>
           match strip_prefix dir (entry_path e) with
           | Some (r :: rel) =>
               entry_of e (dest_name dest (String.concat "/" (r :: rel)))
           | _ => []
           end)
        fs
  | Append src nm =>
      if String.eqb (stored_name nm) "" then []
      else [ {| entryName := stored_name nm; backing := None; content := src |} ]
  end.

Definition archive_entries (fs : FS) (queue : list ArchiveCmd) : list ZipEntry :=
  flat_map (entries_of_cmd fs) queue.

(* ------------------------------------------------------------------ *)
(** ** Events *)

(** What the engine and the output stream report after [finalize]. *)
Inductive EngineEvent :=
| Warning (err : Err)       (* archive "warning" *)
| Error (err : Err)         (* archive "error" *)
| Close (pointer : N).      (* output "close"; [archive.pointer()] bytes *)

Definition ENTRYNOTSUPPORTED : Err :=
  {| code := Some "ENTRYNOTSUPPORTED"; message := "entry not supported" |}.

Definition ENTRYNAMEREQUIRED : Err :=
  {| code := Some "ENTRYNAMEREQUIRED";
     message := "entry name must be a non-empty string value" |}.

(** What the engine reports for the file-system entry [e] asked for under
    the name [nm]. *)
Definition entry_events (e : FsEntry) (nm : string) : list EngineEvent :=
  match fileType (dirent e) with
  | OtherType => [Warning ENTRYNOTSUPPORTED]
  | DirectoryType =>
      if String.eqb (stored_name (trailingSlashIt nm)) ""
      then [Error ENTRYNAMEREQUIRED] else []
  | _ => if String.eqb (stored_name nm) "" then [Error ENTRYNAMEREQUIRED] else []
  end.

(** A path that is listed, and not as a directory. *)
Definition not_a_directory (p : Path) (fs : FS) : bool :=
  match lookup p fs with
  | Some e =>
      match fileType (dirent e) with
      | RegularFile | OtherType => true
      | _ => false
      end
  | None => false
  end.

(** The warnings and errors of one command: a warning for a [File] whose path
    is not in [fs] and for every entry of a kind the engine does not support,
    an error for a name that comes out empty and for a [Directory] that is a
    file. *)
Definition cmd_events (fs : FS) (c : ArchiveCmd) : list EngineEvent :=
  match c with
  | File p nm =>
      match lookup p fs with
      | Some e => entry_events e (file_name p nm)
      | None => [Warning ENOENT]
      end
  | Directory dir dest =>
      (if not_a_directory dir fs then [Error ENOTDIR] else [])
      ++ flat_map
           (fun e =>
              match strip_prefix dir (entry_path e) with
              | Some (r :: rel) =>
                  entry_events e (dest_name dest (String.concat "/" (r :: rel)))
              | _ => []
              end)
           fs
  | Append _ nm =>
      if String.eqb (stored_name nm) "" then [Error ENTRYNAMEREQUIRED] else []
  end.

Definition engine_events (fs : FS) (queue : list ArchiveCmd) : list EngineEvent :=
  flat_map (cmd_events fs) queue.


(** A [Directory] that cannot be read never ends its walk: the archive waits
    for it, and the output stream is never closed. *)
Definition stalls (fs : FS) (queue : list ArchiveCmd) : bool :=
  existsb
    (fun c =>
       match c with
       | Directory dir _ => not_a_directory dir fs
       | _ => false
       end)
    queue.

(** A warning the handler does not treat as fatal. *)
Definition benign (ev : EngineEvent) : Prop :=
  exists err, ev = Warning err /\ code err = Some "ENOENT".

(** A warning or an error that rejects the promise with [err]. *)
Definition fatal (ev : EngineEvent) (err : Err) : Prop :=
  (ev = Warning err /\ code err <> Some "ENOENT") \/ ev = Error err.

(* ================================================================== *)
(** * The host *)
(* ================================================================== *)

(** What the surroundings of the plugin fix: the state [U] the caller's hooks
    keep between their calls, and the pattern matcher of [fs.globSync]
    ([glob_match pattern rel] tells whether the pattern matches the path
    [rel], taken relative to the working directory). *)
Class Host := {
  U : Type;
  glob_match : string -> string -> bool
}.

Section Assembler.
Context `{Host}.

(* ------------------------------------------------------------------ *)
(** ** Options *)

(** [string[] | string] *)
Inductive Patterns := Str (s : string) | Arr (l : list string).

(** A hook is handed the archive handle.  What it does with the handle is the
    list of entry commands it issues; its own state is threaded through. *)
Definition HandleFile := Dirent -> U -> bool * list ArchiveCmd * U.
Definition BeforeClose := U -> list ArchiveCmd * U.

Record UserOptions := {
  user_include : option Patterns;
  user_exclude : option Patterns;
  user_zipName : option string;
  user_silent : option bool;
  user_handleFile : option HandleFile;
  user_beforeClose : option BeforeClose
}.

Record ResolvedOptions := {
  include : Patterns;
  exclude : Patterns;
  zipName : string;
  silent : bool;
  handleFile : option HandleFile;
  beforeClose : BeforeClose
}.

(** [vitePluginZip()] called without an argument: [userOptions = {}]. *)
Definition no_options : UserOptions :=
  {| user_include := None; user_exclude := None; user_zipName := None;
     user_silent := None; user_handleFile := None; user_beforeClose := None |}.

(** [a ?? b] *)
Definition nullish {A : Type} (a : option A) (b : A) : A :=
  match a with Some v => v | None => b end.

Record BuildOptions := { outDir : string }.
Record ResolvedConfig := { root : string; build : BuildOptions }.

(* ------------------------------------------------------------------ *)
(** ** The state of a build and the monad of the assembler *)

Inductive PromiseState := Pending | Fulfilled | Rejected (err : Err).

Inductive LogLine := LogText (line : string) | LogErr (err : Err).

(** The calls the assembler makes, in the order it makes them.  A hook call
    carries what the hook answered and the commands it issued. *)
Inductive Call :=
| CallCreateWriteStream (p : Path)
| CallPipe
| CallDirectory (dirpath : Path) (destpath : string)
| CallGlobSync (pattern : Patterns) (cwd : Path) (excl : list string)
| CallHandleFile (dirEnt : Dirent) (handled : bool) (cmds : list ArchiveCmd)
| CallFile (filePath : Path) (relFilePath : string)
| CallBeforeClose (cmds : list ArchiveCmd)
| CallFinalize.

Record State := {
  fs : FS;                      (* the file system *)
  console : list LogLine;       (* console.log, oldest line first *)
  user : U;                     (* the hooks' own state *)
  trace : list Call;            (* calls made so far, oldest first *)
  output : option Path;         (* the write stream asked for, not yet open *)
  queue : list ArchiveCmd;      (* the archive's commands, oldest first *)
  finalized : bool;             (* archive.finalize() was called *)
  promise : option PromiseState (* the deferred result, once created *)
}.

Definition M (A : Type) : Type := State -> A * State.

Definition ret {A : Type} (a : A) : M A := fun s => (a, s).

Definition bind {A B : Type} (c : M A) (k : A -> M B) : M B :=
  fun s => let '(a, s') := c s in k a s'.

Notation "x <- c ;; k" := (bind c (fun x => k))
  (at level 61, c at next level, right associativity).
Notation "c ;; k" := (bind c (fun _ => k))
  (at level 61, right associativity).

Definition exec {A : Type} (c : M A) (s : State) : State := snd (c s).

Definition call (ev : Call) : M unit :=
  fun s => (tt, {| fs := fs s; console := console s; user := user s;
                   trace := trace s ++ [ev]; output := output s;
                   queue := queue s; finalized := finalized s;
                   promise := promise s |}).

Definition enqueue (cmds : list ArchiveCmd) : M unit :=
  fun s => (tt, {| fs := fs s; console := console s; user := user s;
                   trace := trace s; output := output s;
                   queue := queue s ++ cmds; finalized := finalized s;
                   promise := promise s |}).

Definition log (l : LogLine) : M unit :=
  fun s => (tt, {| fs := fs s; console := console s ++ [l]; user := user s;
                   trace := trace s; output := output s;
                   queue := queue s; finalized := finalized s;
                   promise := promise s |}).

Definition set_promise (p : option PromiseState) : M unit :=
  fun s => (tt, {| fs := fs s; console := console s; user := user s;
                   trace := trace s; output := output s;
                   queue := queue s; finalized := finalized s;
                   promise := p |}).

(** [Promise.withResolvers()] *)
Definition Promise_withResolvers : M unit := set_promise (Some Pending).

(** [resolve(undefined)]: settles a pending promise, and nothing else. *)
Definition resolve : M unit :=
  fun s => match promise s with
           | Some Pending => set_promise (Some Fulfilled) s
           | _ => (tt, s)
           end.

(** [reject(err)] *)
Definition reject (err : Err) : M unit :=
  fun s => match promise s with
           | Some Pending => set_promise (Some (Rejected err)) s
           | _ => (tt, s)
           end.

(** [fs.createWriteStream(p)] builds the stream object.  Node opens the file
    on a later turn of the event loop, after the synchronous body of
    [zipOutput] has run: here the path is only recorded ([stream_open] below
    does the opening). *)
Definition fs_createWriteStream (p : Path) : M unit :=
  call (CallCreateWriteStream p) ;;
  fun s => (tt, {| fs := fs s; console := console s; user := user s;
                   trace := trace s; output := Some p;
                   queue := queue s; finalized := finalized s;
                   promise := promise s |}).

(** [archiver("zip", ...)]: a fresh archive. *)
Definition archiver_zip : M unit :=
  fun s => (tt, {| fs := fs s; console := console s; user := user s;
                   trace := trace s; output := output s;
                   queue := []; finalized := false;
                   promise := promise s |}).

Definition archive_pipe : M unit := call CallPipe.

Definition archive_directory (dirpath : Path) (destpath : string) : M unit :=
  call (CallDirectory dirpath destpath) ;; enqueue [Directory dirpath destpath].

Definition archive_file (filePath : Path) (nm : string) : M unit :=
  call (CallFile filePath nm) ;; enqueue [File filePath nm].

Definition archive_finalize : M unit :=
  call CallFinalize ;;
  fun s => (tt, {| fs := fs s; console := console s; user := user s;
                   trace := trace s; output := output s;
                   queue := queue s; finalized := true;
                   promise := promise s |}).

Definition set_user (u : U) : M unit :=
  fun s => (tt, {| fs := fs s; console := console s; user := u;
                   trace := trace s; output := output s;
                   queue := queue s; finalized := finalized s;
                   promise := promise s |}).

(** [pluginOptions.handleFile(archive, dirEnt)] *)
Definition call_handleFile (h : HandleFile) (dirEnt : Dirent) : M bool :=
  fun s =>
    let '(handled, cmds, u) := h dirEnt (user s) in
    (call (CallHandleFile dirEnt handled cmds) ;;
     enqueue cmds ;; set_user u ;; ret handled) s.

(** [pluginOptions.beforeClose(archive)] *)
Definition call_beforeClose (b : BeforeClose) : M unit :=
  fun s =>
    let '(cmds, u) := b (user s) in
    (call (CallBeforeClose cmds) ;; enqueue cmds ;; set_user u) s.

Definition patterns_of (p : Patterns) : list string :=
  match p with Str s => [s] | Arr l => l end.

(** [pattern] matches the path whose pieces relative to the working
    directory are [rel]. *)
Definition glob_matches (pattern : string) (rel : list string) : bool :=
  glob_match pattern (String.concat "/" rel).

(** The walk of [globSync] leaves a path out when an [exclude] pattern
    matches it, and does not enter a directory that an [exclude] pattern
    matches: a path is pruned when a pattern matches it or a directory on
    the way to it, the working directory (whose relative path is empty)
    included. *)
Definition pruned (excl : list string) (rel : list string) : bool :=
  existsb (fun dir => existsb (fun q => glob_matches q dir) excl) (prefixes rel).

(** The contract of [fs.globSync(pattern, { cwd, exclude, withFileTypes })]:
    the entries whose path relative to [cwd] matches one of the patterns and
    is not pruned by [exclude], as directory entries. *)
Definition globSync (pattern : Patterns) (cwd : Path) (excl : list string)
    (files : FS) : list Dirent :=
  map dirent
    (filter
       (fun e =>
          let rel := relative_segments cwd (entry_path e) in
          existsb (fun p => glob_matches p rel) (patterns_of pattern)
          && negb (pruned excl rel))
       files).

Definition fs_globSync (pattern : Patterns) (cwd : Path) (excl : list string)
    : M (list Dirent) :=
  call (CallGlobSync pattern cwd excl) ;;
  fun s => (globSync pattern cwd excl (fs s), s).

(** [for (const x of l) body] *)
Fixpoint for_of {A : Type} (l : list A) (body : A -> M unit) : M unit :=
  match l with
  | [] => ret tt
  | x :: l' => body x ;; for_of l' body
  end.

(* ------------------------------------------------------------------ *)
(** ** [zipOutput] *)

(** [p === s] for a [string[] | string] and a string literal. *)
Definition strict_eq (p : Patterns) (s : string) : bool :=
  match p with Str s' => String.eqb s' s | Arr _ => false end.

(** [Array.isArray(p) && p.length === 0] *)
Definition is_empty_array (p : Patterns) : bool :=
  match p with Arr l => (List.length l =? 0)%nat | Str _ => false end.

Definition is_null {A : Type} (o : option A) : bool :=
  match o with None => true | Some _ => false end.

(** The test of the fast path. *)
Definition fast_path (pluginOptions : ResolvedOptions) : bool :=
  strict_eq (include pluginOptions) "dist/**/*"
  && is_empty_array (exclude pluginOptions)
  && is_null (handleFile pluginOptions).

(** The body of the [for] loop over the entries [globSync] returned. *)
Definition process_entry (pluginOptions : ResolvedOptions) (cwd : Path)
    (dirEnt : Dirent) : M unit :=
  if negb (isFile dirEnt) then ret tt
  else
    handled <- match handleFile pluginOptions with
               | Some h => call_handleFile h dirEnt
               | None => ret false
               end ;;
    if handled then ret tt
    else
      let filePath := path_join (parentPath dirEnt) (name dirEnt) in
      let relFilePath := path_relative cwd filePath in
      archive_file filePath relFilePath.

(** The synchronous body of [zipOutput], up to [return promise].  The root
    of a resolved configuration is an absolute path.  The three event
    handlers the body registers are [on_close], [on_warning] and [on_error]
    below. *)
Definition zipOutput (pluginOptions : ResolvedOptions)
    (viteConfig : ResolvedConfig) : M unit :=
  Promise_withResolvers ;;
  let cwd := path_resolve (root viteConfig) in
  let distDir := path_join cwd (outDir (build viteConfig)) in
  let ZIP_OUT_FILE := path_join distDir (zipName pluginOptions) in
  fs_createWriteStream ZIP_OUT_FILE ;;
  archiver_zip ;;
  archive_pipe ;;
  if fast_path pluginOptions then
    let distDir := path_join cwd (outDir (build viteConfig)) in
    archive_directory distDir "dist" ;;
    call_beforeClose (beforeClose pluginOptions) ;;
    archive_finalize
  else
    let excludeArr := match exclude pluginOptions with
                      | Arr l => l
                      | Str s => [s]
                      end in
    allFiles <- fs_globSync (include pluginOptions) cwd excludeArr ;;
    for_of allFiles (process_entry pluginOptions cwd) ;;
    call_beforeClose (beforeClose pluginOptions) ;;
    archive_finalize.

(* ------------------------------------------------------------------ *)
(** ** The event handlers and the engine's turn *)

(** [output.on("close", ...)] *)
Definition on_close (pluginOptions : ResolvedOptions) (pointer : N) : M unit :=
  (if negb (silent pluginOptions)
   then log (LogText (zipName pluginOptions ++ " size: "
                      ++ formatFileSize (inject_Z (Z.of_N pointer)))%string)
   else ret tt) ;;
  resolve.

(** [err.code === "ENOENT"] *)
Definition code_is (err : Err) (c : string) : bool :=
  match code err with Some c' => String.eqb c' c | None => false end.

(** [archive.on("warning", ...)] *)
Definition on_warning (err : Err) : M unit :=
  if code_is err "ENOENT" then log (LogErr err) else reject err.

(** [archive.on("error", ...)] *)
Definition on_error (err : Err) : M unit := reject err.

Definition deliver (pluginOptions : ResolvedOptions) (ev : EngineEvent) : M unit :=
  match ev with
  | Warning err => on_warning err
  | Error err => on_error err
  | Close pointer => on_close pluginOptions pointer
  end.

(** The write stream opens its file.  When it cannot, the stream emits an
    ["error"] event with the error that is returned here, and the file system
    stays as it is. *)
Definition stream_open : M (option Err) :=
  fun s =>
    match output s with
    | Some p =>
        match open_for_write p (fs s) with
        | inl files =>
            (None, {| fs := files; console := console s;
                      user := user s; trace := trace s; output := output s;
                      queue := queue s; finalized := finalized s;
                      promise := promise s |})
        | inr err => (Some err, s)
        end
    | None => (None, s)
    end.

(** The entries the engine makes of the archive's commands on the file system
    of [s]. *)
Definition produced (s : State) : list ZipEntry := archive_entries (fs s) (queue s).

(** How the engine's turn ends: the output stream is closed; or it never is,
    the archive waiting for a directory it cannot read; or the write stream
    fails to open, and its ["error"] event, for which [zipOutput] registers
    no listener, brings the process down. *)
Inductive Outcome := Closed | Stalled | Crashed (err : Err).

(** The engine's turn, after the synchronous body: the stream opens its
    file, the commands are carried out, their warnings and errors go to the
    handlers, and the stream closes after [pointer] bytes. *)
Definition engine_turn (pluginOptions : ResolvedOptions) (pointer : N)
    : M Outcome :=
  opening <- stream_open ;;
  match opening with
  | Some err => ret (Crashed err)
  | None =>
      fun s =>
        if stalls (fs s) (queue s) then
          (for_of (engine_events (fs s) (queue s)) (deliver pluginOptions) ;;
           ret Stalled) s
        else
          (for_of (engine_events (fs s) (queue s) ++ [Close pointer])
                  (deliver pluginOptions) ;;
           ret Closed) s
  end.

(* ------------------------------------------------------------------ *)
(** ** The plugin object *)

Record VitePluginZip := {
  pluginOptions : ResolvedOptions;
  config : option ResolvedConfig     (* [let config], set by configResolved *)
}.

Definition vitePluginZip (userOptions : UserOptions) : VitePluginZip :=
  {| pluginOptions :=
       {| include := nullish (user_include userOptions) (Str "dist/**/*");
          zipName := nullish (user_zipName userOptions) "dist.zip";
          exclude := nullish (user_exclude userOptions) (Arr []);
          silent := nullish (user_silent userOptions) false;
          handleFile := user_handleFile userOptions;
          beforeClose := nullish (user_beforeClose userOptions)
                                 (fun u => ([], u)) |};
     config := None |}.


(** How a call of the [closeBundle] handler ends: it returned at once, it
    went through [zipOutput] and awaits its promise, or [zipOutput] threw
    because no configuration had been resolved. *)
Inductive Completion := Skipped | Awaiting | Threw.

(** [closeBundle.handler(error)] *)
Definition closeBundle_handler (plugin : VitePluginZip) (error : option Err)
    : M Completion :=
  match error with
  | Some _ => ret Skipped
  | None =>
      match config plugin with
      | Some viteConfig =>
          zipOutput (pluginOptions plugin) viteConfig ;; ret Awaiting
      | None => ret Threw
      end
  end.

(** A build about to complete: nothing logged, no call made yet. *)
Definition initial (files : FS) (u : U) : State :=
  {| fs := files; console := []; user := u; trace := []; output := None;
     queue := []; finalized := false; promise := None |}.

End Assembler.

Arguments UserOptions {_}.
Arguments ResolvedOptions {_}.
Arguments VitePluginZip {_}.
Arguments State {_}.

(* ================================================================== *)
(** * Reading a trace *)
(* ================================================================== *)

(** The commands a call leaves in the archive's queue. *)
Definition cmds_of_call (c : Call) : list ArchiveCmd :=
  match c with
  | CallDirectory d dest => [Directory d dest]
  | CallFile p nm => [File p nm]
  | CallHandleFile _ _ cmds => cmds
  | CallBeforeClose cmds => cmds
  | _ => []
  end.

(** The commands issued by the caller's hooks. *)
Definition hook_cmds (tr : list Call) : list ArchiveCmd :=
  flat_map
    (fun c =>
       match c with
       | CallHandleFile _ _ cmds => cmds
       | CallBeforeClose cmds => cmds
       | _ => []
       end)
    tr.

(** Calls that belong to the enumeration of the general path. *)
Definition is_enumeration (c : Call) : bool :=
  match c with
  | CallGlobSync _ _ _ | CallHandleFile _ _ _ | CallFile _ _ => true
  | _ => false
  end.



(** What a call made inside the loop can be: a hook call or a default
    insertion, for a regular file among the enumerated entries. *)
Definition loop_call_ok (cwd : Path) (l : list Dirent) (c : Call) : Prop :=
  match c with
  | CallHandleFile d _ _ => In d l /\ isFile d = true
  | CallFile p nm =>
      exists d, In d l /\ isFile d = true
                /\ p = dirent_path d /\ nm = path_relative cwd p
  | _ => False
  end.

Section TraceOfRun.
Context `{Host}.

(** [s] after the calls [tr] were made and the hooks left [u]. *)
Definition extend (s : State) (tr : list Call) (u : U) : State :=
  {| fs := fs s; console := console s; user := u;
     trace := trace s ++ tr; output := output s;
     queue := queue s ++ flat_map cmds_of_call tr;
     finalized := finalized s; promise := promise s |}.


(** The calls of one turn of the loop, and the hooks' state after it. *)
Definition step_calls (pluginOptions : ResolvedOptions) (cwd : Path)
    (dirEnt : Dirent) (u : U) : list Call * U :=
  if negb (isFile dirEnt) then ([], u)
  else
    let filePath := path_join (parentPath dirEnt) (name dirEnt) in
    let insertion := CallFile filePath (path_relative cwd filePath) in
    match handleFile pluginOptions with
    | Some h =>
        let '(handled, cmds, u') := h dirEnt u in
        if handled then ([CallHandleFile dirEnt true cmds], u')
        else ([CallHandleFile dirEnt false cmds; insertion], u')
    | None => ([insertion], u)
    end.

Fixpoint loop_calls (pluginOptions : ResolvedOptions) (cwd : Path)
    (l : list Dirent) (u : U) : list Call * U :=
  match l with
  | [] => ([], u)
  | d :: l' =>
      let '(t1, u1) := step_calls pluginOptions cwd d u in
      let '(t2, u2) := loop_calls pluginOptions cwd l' u1 in
      (t1 ++ t2, u2)
  end.

(** The working directory, the output directory and the archive's path of a
    run, as [zipOutput] computes them. *)
Definition working_dir (viteConfig : ResolvedConfig) : Path :=
  path_resolve (root viteConfig).

Definition output_dir (viteConfig : ResolvedConfig) : Path :=
  path_join (working_dir viteConfig) (outDir (build viteConfig)).

Definition zip_out_file (pluginOptions : ResolvedOptions)
    (viteConfig : ResolvedConfig) : Path :=
  path_join (output_dir viteConfig) (zipName pluginOptions).

Definition exclude_array (pluginOptions : ResolvedOptions) : list string :=
  patterns_of (exclude pluginOptions).

(** The entries the general path enumerates on the files [files]. *)
Definition enumerated (pluginOptions : ResolvedOptions)
    (viteConfig : ResolvedConfig) (files : FS) : list Dirent :=
  globSync (include pluginOptions) (working_dir viteConfig)
           (exclude_array pluginOptions) files.

(** All the calls of [zipOutput] on the files [files], and the hooks' state
    at its end. *)
Definition run_calls (pluginOptions : ResolvedOptions)
    (viteConfig : ResolvedConfig) (files : FS) (u : U) : list Call * U :=
  let opening := [CallCreateWriteStream (zip_out_file pluginOptions viteConfig);
                  CallPipe] in
  if fast_path pluginOptions then
    let '(cmds, u') := beforeClose pluginOptions u in
    (opening ++ [CallDirectory (output_dir viteConfig) "dist";
                 CallBeforeClose cmds; CallFinalize], u')
  else
    let '(loop, u1) :=
      loop_calls pluginOptions (working_dir viteConfig)
                 (enumerated pluginOptions viteConfig files) u in
    let '(cmds, u2) := beforeClose pluginOptions u1 in
    (opening
     ++ [CallGlobSync (include pluginOptions) (working_dir viteConfig)
                      (exclude_array pluginOptions)]
     ++ loop ++ [CallBeforeClose cmds; CallFinalize], u2).

(** The options [o] with another [exclude]. *)
Definition with_exclude (o : ResolvedOptions) (x : Patterns) : ResolvedOptions :=
  {| include := include o; exclude := x; zipName := zipName o;
     silent := silent o; handleFile := handleFile o;
     beforeClose := beforeClose o |}.

End TraceOfRun.

(* ================================================================== *)
(** * A concrete build *)
(* ================================================================== *)

(** The host of the examples: hooks without state of their own, and the
    small matcher [simple_glob]. *)
#[global] Instance simple_host : Host := {| U := unit; glob_match := simple_glob |}.

Definition a_file (parent : Path) (nm contents : string) : FsEntry :=
  {| dirent := {| name := nm; parentPath := parent; fileType := RegularFile |};
     data := contents |}.

Definition a_directory (parent : Path) (nm : string) : FsEntry :=
  {| dirent := {| name := nm; parentPath := parent; fileType := DirectoryType |};
     data := "" |}.

Definition project : ResolvedConfig :=
  {| root := "/project"; build := {| outDir := "dist" |} |}.

(** The same project, built into [build/] instead of [dist/]. *)
Definition project_build : ResolvedConfig :=
  {| root := "/project"; build := {| outDir := "build" |} |}.

Definition logo_svg : FsEntry :=
  a_file ["project"; "dist"; "assets"] "logo.svg" "<svg></svg>".

(** The output directory of the repository's tests. *)
Definition dist_files : FS :=
  [ a_directory ["project"] "dist";
    a_file ["project"; "dist"] "index.html" "<html></html>";
    a_file ["project"; "dist"] "app.js" "console.log('test');";
    a_directory ["project"; "dist"] "assets";
    logo_svg ].

Definition build_index_html : FsEntry :=
  a_file ["project"; "build"] "index.html" "<html></html>".

Definition build_files : FS := [ a_directory ["project"] "build"; build_index_html ].

Definition a_link (parent : Path) (nm target : string) : FsEntry :=
  {| dirent := {| name := nm; parentPath := parent; fileType := SymbolicLink |};
     data := target |}.

(** The same output directory with a link to the page in it. *)
Definition dist_with_link : FS :=
  dist_files ++ [a_link ["project"; "dist"] "latest.html" "index.html"].

(** The project, built into a directory beside its root. *)
Definition project_outside : ResolvedConfig :=
  {| root := "/project"; build := {| outDir := "../out" |} |}.


Definition no_hook : BeforeClose := fun u => ([], u).

(** [{ include: ["dist/**/*"], zipName: "out.zip", silent: true }] *)
Definition listed_include : ResolvedOptions :=
  {| include := Arr ["dist/**/*"]; exclude := Arr []; zipName := "out.zip";
     silent := true; handleFile := None; beforeClose := no_hook |}.


(** [{ include: "dist/**/*", exclude: "dist/**/*.svg", zipName: "out.zip" }] *)
Definition without_svg : ResolvedOptions :=
  {| include := Str "dist/**/*"; exclude := Str "dist/**/*.svg";
     zipName := "out.zip"; silent := true; handleFile := None;
     beforeClose := no_hook |}.

(** The same, with a [beforeClose] that files the logo itself. *)
Definition svg_by_hook : ResolvedOptions :=
  {| include := Str "dist/**/*"; exclude := Str "dist/**/*.svg";
     zipName := "out.zip"; silent := true; handleFile := None;
     beforeClose := fun u => ([File (entry_path logo_svg) "dist/assets/logo.svg"], u) |}.

(** A whole build: the synchronous body, then the engine's turn. *)
Definition build_with (o : ResolvedOptions) (c : ResolvedConfig) (files : FS)
    (pointer : N) : State :=
  exec (engine_turn o pointer) (exec (zipOutput o c) (initial files tt)).

Definition EACCES : Err := {| code := Some "EACCES"; message := "permission denied" |}.

(* ================================================================== *)
(** * More readings of a run *)
(* ================================================================== *)

(** The entries handed to [handleFile], in the order of the calls. *)
Definition handed (tr : list Call) : list Dirent :=
  flat_map (fun c => match c with CallHandleFile d _ _ => [d] | _ => [] end) tr.

(** The default insertions, in the order of the calls. *)
Definition inserted (tr : list Call) : list (Path * string) :=
  flat_map (fun c => match c with CallFile p nm => [(p, nm)] | _ => [] end) tr.

(** The entries [handleFile] was called with and what it answered, in the
    order of the calls. *)
Definition answered (tr : list Call) : list (Dirent * bool) :=
  flat_map (fun c => match c with CallHandleFile d b _ => [(d, b)] | _ => [] end) tr.

(** What the warning handler logs for the events [evs]. *)
Definition warning_logs (evs : list EngineEvent) : list LogLine :=
  flat_map
    (fun ev =>
       match ev with
       | Warning err => if code_is err "ENOENT" then [LogErr err] else []
       | _ => []
       end)
    evs.

Section Readings.
Context `{Host}.

(** The line the close handler logs. *)
Definition summary_line (o : ResolvedOptions) (pointer : N) : LogLine :=
  LogText (zipName o ++ " size: "
           ++ formatFileSize (inject_Z (Z.of_N pointer)))%string.

(** The command of the default insertion of an entry. *)
Definition default_insertion (cwd : Path) (d : Dirent) : ArchiveCmd :=
  File (dirent_path d) (path_relative cwd (dirent_path d)).

(** The options [o] with another [include]. *)
Definition with_include (o : ResolvedOptions) (x : Patterns) : ResolvedOptions :=
  {| include := x; exclude := exclude o; zipName := zipName o;
     silent := silent o; handleFile := handleFile o;
     beforeClose := beforeClose o |}.

End Readings.

(* ================================================================== *)
(** * The earlier assembler *)
(* ================================================================== *)

(** The [zipOutput] of the version of the plugin that had the two hooks but
    neither the fast path nor the [null] handler: every option is present,
    and [handleFile] is called for every regular file. *)
Module Earlier.
Section Assembler.
Context `{Host}.

Record Options := {
  include : Patterns;
  exclude : Patterns;
  zipName : string;
  silent : bool;
  handleFile : HandleFile;
  beforeClose : BeforeClose
}.

Definition process_entry (pluginOptions : Options) (cwd : Path)
    (dirEnt : Dirent) : M unit :=
  if negb (isFile dirEnt) then ret tt
  else
    bind (call_handleFile (handleFile pluginOptions) dirEnt)
         (fun handled =>
            if handled then ret tt
            else
              let filePath := path_join (parentPath dirEnt) (name dirEnt) in
              let relFilePath := path_relative cwd filePath in
              archive_file filePath relFilePath).

Definition zipOutput (pluginOptions : Options) (viteConfig : ResolvedConfig)
    : M unit :=
  bind Promise_withResolvers (fun _ =>
  let cwd := path_resolve (root viteConfig) in
  let distDir := path_join cwd (outDir (build viteConfig)) in
  let ZIP_OUT_FILE := path_join distDir (zipName pluginOptions) in
  bind (fs_createWriteStream ZIP_OUT_FILE) (fun _ =>
  bind archiver_zip (fun _ =>
  bind archive_pipe (fun _ =>
  let excludeArr := match exclude pluginOptions with
                    | Arr l => l
                    | Str s => [s]
                    end in
  bind (fs_globSync (include pluginOptions) cwd excludeArr) (fun allFiles =>
  bind (for_of allFiles (process_entry pluginOptions cwd)) (fun _ =>
  bind (call_beforeClose (beforeClose pluginOptions)) (fun _ =>
  archive_finalize))))))).

End Assembler.
End Earlier.

Arguments Earlier.Options {_}.

Section EarlierOptions.
Context `{Host}.

(** The [() => false] the earlier version takes for a missing [handleFile]. *)
Definition never_handled : HandleFile := fun _ u => (false, [], u).

(** The options of the earlier version that stand for [o], with [h] as the
    handler. *)
Definition earlier_options (o : ResolvedOptions) (h : HandleFile) : Earlier.Options :=
  {| Earlier.include := include o; Earlier.exclude := exclude o;
     Earlier.zipName := zipName o; Earlier.silent := silent o;
     Earlier.handleFile := h; Earlier.beforeClose := beforeClose o |}.

End EarlierOptions.

(** [handleFile] of the repository's test: [app.js] is filed under another
    name by the hook, every other entry is left to the default. *)
Definition renaming : ResolvedOptions :=
  {| include := Str "dist/**/*"; exclude := Arr []; zipName := "out.zip";
     silent := false;
     handleFile :=
       Some (fun d u =>
               if String.eqb (name d) "app.js"
               then (true, [File (dirent_path d) "custom/renamed-app.js"], u)
               else (false, [], u));
     beforeClose := no_hook |}.

(* ================================================================== *)
(** * Facts about paths *)
(* ================================================================== *)

Lemma path_eqb_refl (p : Path) : path_eqb p p = true.
Proof.
  induction p as [|a p IH]; simpl; [reflexivity|].
  now rewrite String.eqb_refl, IH.
Qed.

Lemma path_eqb_eq (p q : Path) : path_eqb p q = true <-> p = q.
Proof.
  split.
  - revert q. induction p as [|a p IH]; intros [|b q]; simpl; try easy.
    intros E. apply andb_true_iff in E as [E1 E2].
    apply String.eqb_eq in E1. apply IH in E2. now subst.
  - intros ->. apply path_eqb_refl.
Qed.

Lemma strip_common_prefix (cwd rel : Path) :
  strip_common cwd (cwd ++ rel) = ([], rel).
Proof.
  induction cwd as [|a cwd IH]; simpl.
  - now destruct rel.
  - now rewrite String.eqb_refl.
Qed.

(** Below [cwd], the relative path is the remaining components, separated by
    ["/"]. *)
Lemma path_relative_below (cwd rel : Path) :
  path_relative cwd (cwd ++ rel) = String.concat "/" rel.
Proof. unfold path_relative. now rewrite strip_common_prefix. Qed.

Lemma strip_prefix_app (dir rel : Path) : strip_prefix dir (dir ++ rel) = Some rel.
Proof.
  induction dir as [|a dir IH]; simpl; [reflexivity|].
  now rewrite String.eqb_refl.
Qed.

Lemma append_nil_r (s : string) : (s ++ "")%string = s.
Proof. induction s; simpl; congruence. Qed.

Lemma append_assoc (a b c : string) :
  ((a ++ b) ++ c)%string = (a ++ (b ++ c))%string.
Proof. induction a; simpl; congruence. Qed.

Lemma has_no_slash_snoc (s : string) (c : ascii) :
  has_no_slash s = true -> Ascii.eqb c "/" = false ->
  has_no_slash (s ++ String c "") = true.
Proof.
  intros Hs Hc. induction s as [|d s IH]; simpl in *.
  - now rewrite Hc.
  - apply andb_true_iff in Hs as [Hd Hs]. now rewrite Hd, IH.
Qed.

Lemma split_slash_whole (s cur : string) :
  has_no_slash s = true -> split_slash cur s = [(cur ++ s)%string].
Proof.
  revert cur. induction s as [|c s IH]; intros cur Hs; simpl in *.
  - now rewrite append_nil_r.
  - apply andb_true_iff in Hs as [Hc Hs]. apply negb_true_iff in Hc.
    rewrite Hc, IH by assumption. now rewrite append_assoc.
Qed.

Lemma split_slash_pieces (s cur : string) :
  has_no_slash cur = true ->
  Forall (fun x => has_no_slash x = true) (split_slash cur s).
Proof.
  revert cur. induction s as [|c s IH]; intros cur Hcur; simpl.
  - now constructor.
  - destruct (Ascii.eqb c "/") eqn:Ec.
    + constructor; [assumption | now apply IH].
    + apply IH. now apply has_no_slash_snoc.
Qed.

Lemma components_removelast (p : Path) : components p -> components (removelast p).
Proof.
  induction 1 as [|a p Ha Hp IH]; simpl; [constructor|].
  destruct p; [constructor | now constructor].
Qed.

Lemma push_segment_components (p : Path) (seg : string) :
  components p -> has_no_slash seg = true -> components (push_segment p seg).
Proof.
  intros Hp Hs. unfold push_segment.
  destruct (String.eqb seg "") eqn:E1; [assumption|].
  destruct (String.eqb seg ".") eqn:E2; [assumption|].
  destruct (String.eqb seg "..") eqn:E3; [now apply components_removelast|].
  apply Forall_app; split; [assumption|].
  constructor; [|constructor].
  unfold is_component. now rewrite Hs, E1, E2, E3.
Qed.

Lemma fold_push_components (l : list string) (p : Path) :
  components p -> Forall (fun x => has_no_slash x = true) l ->
  components (fold_left push_segment l p).
Proof.
  revert p. induction l as [|x l IH]; intros p Hp Hl; simpl; [assumption|].
  inversion Hl; subst. apply IH; [|assumption].
  now apply push_segment_components.
Qed.

(** [path.join] keeps a normalised path normalised. *)
Lemma path_join_components (base : Path) (rel : string) :
  components base -> components (path_join base rel).
Proof.
  intros Hb. apply fold_push_components; [assumption|].
  now apply split_slash_pieces.
Qed.

Lemma path_resolve_components (s : string) : components (path_resolve s).
Proof. apply path_join_components. constructor. Qed.

Lemma path_join_component (p : Path) (x : string) :
  is_component x = true -> path_join p x = p ++ [x].
Proof.
  unfold is_component. intros Hx.
  repeat (apply andb_true_iff in Hx as [Hx ?]).
  unfold path_join, segments. rewrite split_slash_whole by assumption.
  simpl. unfold push_segment.
  repeat match goal with
         | E : negb _ = true |- _ => apply negb_true_iff in E; rewrite E
         end.
  reflexivity.
Qed.

(** Splitting a normalised path into directory and base name, and joining the
    two again, gives the path back. *)
Lemma path_join_dirname_basename (p : Path) :
  components p -> path_join (removelast p) (last p "") = p.
Proof.
  intros Hp. destruct p as [|a p] using rev_ind; [reflexivity|].
  clear IHp. rewrite removelast_last, last_last.
  apply path_join_component.
  apply Forall_app in Hp as [_ Hp]. now inversion Hp.
Qed.

(* ================================================================== *)
(** * Facts about entry names *)
(* ================================================================== *)

Lemma path_relative_segments (from to : Path) :
  path_relative from to = String.concat "/" (relative_segments from to).
Proof.
  unfold path_relative, relative_segments. now destruct (strip_common from to).
Qed.

Lemma prefixes_whole {A : Type} (l : list A) : In l (prefixes l).
Proof.
  induction l as [|x l IH]; simpl; [now left|].
  right. apply in_map_iff. now exists l.
Qed.

Lemma is_sep_char (c : ascii) :
  Ascii.eqb c "/" = false -> Ascii.eqb c "\" = false -> is_sep c = false.
Proof. intros H1 H2. unfold is_sep. now rewrite H1, H2. Qed.

(** A piece without separators is read as one piece. *)
Lemma split_seps_whole (x cur : string) (run : bool) :
  has_no_slash x = true -> has_no_backslash x = true ->
  split_seps cur run x = [(cur ++ x)%string].
Proof.
  revert cur run. induction x as [|c x IH]; intros cur run Hs Hb; simpl in *.
  - now rewrite append_nil_r.
  - apply andb_true_iff in Hs as [Hc Hs]. apply andb_true_iff in Hb as [Hc' Hb].
    apply negb_true_iff in Hc, Hc'. rewrite (is_sep_char c Hc Hc').
    rewrite IH by assumption. now rewrite append_assoc.
Qed.

Lemma split_seps_sep (x rest cur : string) (run : bool) :
  has_no_slash x = true -> has_no_backslash x = true ->
  x <> "" \/ run = false ->
  split_seps cur run (x ++ String "/" rest)
  = (cur ++ x)%string :: split_seps "" true rest.
Proof.
  revert cur run. induction x as [|c x IH]; intros cur run Hs Hb Hne; simpl in *.
  - destruct Hne as [Hne| ->]; [contradiction|]. now rewrite append_nil_r.
  - apply andb_true_iff in Hs as [Hc Hs]. apply andb_true_iff in Hb as [Hc' Hb].
    apply negb_true_iff in Hc, Hc'. rewrite (is_sep_char c Hc Hc').
    rewrite IH by auto. now rewrite append_assoc.
Qed.

Lemma split_seps_nonempty (s cur : string) (run : bool) : split_seps cur run s <> [].
Proof.
  revert cur run. induction s as [|c s IH]; intros cur run; simpl; [discriminate|].
  destruct (is_sep c); [destruct run|]; try apply IH. discriminate.
Qed.

Lemma portable_cons (x : string) (l : Path) :
  portable (x :: l) = true ->
  x <> "" /\ has_no_slash x = true /\ has_no_backslash x = true
  /\ is_component x = true /\ portable l = true.
Proof.
  unfold portable. simpl. intros E.
  apply andb_true_iff in E as [E El]. apply andb_true_iff in E as [Ec Eb].
  pose proof Ec as Ec'. unfold is_component in Ec'.
  repeat (apply andb_true_iff in Ec' as [Ec' ?]).
  repeat split; auto.
  intros ->. discriminate.
Qed.

Lemma concat_cons (x y : string) (l : list string) :
  String.concat "/" (x :: y :: l)
  = (x ++ String "/" (String.concat "/" (y :: l)))%string.
Proof. reflexivity. Qed.

(** Cutting a joined list of pieces at the separators gives the pieces back,
    and after a final slash an empty piece. *)
Lemma split_seps_pieces (l : list string) (run : bool) :
  l <> [] ->
  Forall (fun x => x <> "" /\ has_no_slash x = true /\ has_no_backslash x = true) l ->
  split_seps "" run (String.concat "/" l) = l
  /\ split_seps "" run (String.concat "/" l ++ "/") = l ++ [""].
Proof.
  intros Hne Hl. revert run. induction Hl as [|x l (Hx & Hs & Hb) Hl IH]; intros run;
    [contradiction|].
  destruct l as [|y l].
  - simpl. split.
    + now rewrite split_seps_whole.
    + now rewrite split_seps_sep by auto.
  - rewrite concat_cons. destruct (IH ltac:(discriminate) true) as [IH1 IH2].
    split.
    + rewrite split_seps_sep by auto. now rewrite IH1.
    + rewrite append_assoc.
      change (String "/" (String.concat "/" (y :: l)) ++ "/")%string
        with (String "/" (String.concat "/" (y :: l) ++ "/")).
      rewrite split_seps_sep by auto. now rewrite IH2.
Qed.

Lemma portable_pieces (l : Path) :
  portable l = true ->
  Forall (fun x => x <> "" /\ has_no_slash x = true /\ has_no_backslash x = true) l.
Proof.
  induction l as [|x l IH]; intros Hl; [constructor|].
  apply portable_cons in Hl as (Hx & Hs & Hb & _ & Hl).
  constructor; auto.
Qed.

Lemma split_seps_concat (l : Path) (run : bool) :
  l <> [] -> portable l = true ->
  split_seps "" run (String.concat "/" l) = l
  /\ split_seps "" run (String.concat "/" l ++ "/") = l ++ [""].
Proof. intros Hne Hl. now apply split_seps_pieces, portable_pieces. Qed.

Lemma concat_snoc_empty (l : list string) :
  l <> [] -> String.concat "/" (l ++ [""]) = (String.concat "/" l ++ "/")%string.
Proof.
  intros Hne. induction l as [|x l IH]; [contradiction|].
  destruct l as [|y l].
  - reflexivity.
  - change ((x :: y :: l) ++ [""]) with (x :: (y :: l) ++ [""]).
    change ((y :: l) ++ [""]) with (y :: l ++ [""]) at 1.
    rewrite concat_cons.
    change (y :: l ++ [""]) with ((y :: l) ++ [""]).
    rewrite IH by discriminate. rewrite concat_cons, append_assoc. reflexivity.
Qed.

Lemma after_word_no_colon (y tail : string) :
  has_no_colon y = true -> tail = "" \/ starts_with_slash tail = true ->
  match after_word (y ++ tail) with
  | EmptyString => True
  | String d _ => Ascii.eqb d ":" = false
  end.
Proof.
  intros Hy Ht. induction y as [|c y IH]; simpl in *.
  - destruct Ht as [->|Ht]; [exact I|].
    destruct tail as [|d t]; [exact I|]. simpl in Ht.
    apply Ascii.eqb_eq in Ht. subst d. reflexivity.
  - apply andb_true_iff in Hy as [Hc Hy]. apply negb_true_iff in Hc.
    destruct (is_word c); [now apply IH | exact Hc].
Qed.

(** No drive is cut from a path whose first component has no colon. *)
Lemma strip_drive_component (x tail : string) :
  has_no_colon x = true -> tail = "" \/ starts_with_slash tail = true ->
  strip_drive (x ++ tail) = (x ++ tail)%string.
Proof.
  intros Hx Ht. destruct x as [|c x]; simpl.
  - destruct Ht as [->|Ht]; [reflexivity|].
    destruct tail as [|d t]; [reflexivity|]. simpl in Ht.
    apply Ascii.eqb_eq in Ht. subst d. reflexivity.
  - simpl in Hx. apply andb_true_iff in Hx as [_ Hx].
    destruct (is_word c); [|reflexivity].
    pose proof (after_word_no_colon x tail Hx Ht) as Ha.
    destruct (after_word (x ++ tail)) as [|d t]; [reflexivity|]. now rewrite Ha.
Qed.

(** Nothing is cut from the front of a path that starts with a component. *)
Lemma strip_up_component (x tail : string) :
  is_component x = true -> tail = "" \/ starts_with_slash tail = true ->
  strip_up (x ++ tail) = (x ++ tail)%string.
Proof.
  unfold is_component. intros Hx Ht.
  repeat (apply andb_true_iff in Hx as [Hx ?]).
  repeat match goal with
         | E : negb _ = true |- _ => apply negb_true_iff in E
         end.
  destruct x as [|c1 r1]; [discriminate|].
  simpl in Hx. apply andb_true_iff in Hx as [Hc1 Hr1]. apply negb_true_iff in Hc1.
  simpl. rewrite Hc1.
  destruct (Ascii.eqb_spec c1 ".") as [->|_]; [|reflexivity].
  destruct r1 as [|c2 r2]; simpl.
  - destruct Ht as [->|Ht]; [reflexivity|].
    destruct tail as [|d t]; [reflexivity|]. simpl in Ht.
    apply Ascii.eqb_eq in Ht. subst d. now destruct t.
  - simpl in Hr1. apply andb_true_iff in Hr1 as [Hc2 Hr2].
    destruct r2 as [|c3 r3]; simpl.
    + destruct (Ascii.eqb_spec c2 ".") as [->|_].
      * discriminate.
      * destruct tail; reflexivity.
    + simpl in Hr2. apply andb_true_iff in Hr2 as [Hc3 _].
      apply negb_true_iff in Hc3. rewrite Hc3. now rewrite andb_false_r.
Qed.

Lemma concat_head (x : string) (l : list string) :
  exists tail, String.concat "/" (x :: l) = (x ++ tail)%string
               /\ (tail = "" \/ starts_with_slash tail = true).
Proof.
  destruct l as [|y l].
  - exists "". simpl. now rewrite append_nil_r; auto.
  - exists (String "/" (String.concat "/" (y :: l))). split; [reflexivity|].
    now right.
Qed.

Lemma plain_cons (x : string) (l : Path) :
  plain (x :: l) = true -> portable (x :: l) = true /\ has_no_colon x = true.
Proof. unfold plain. intros E. now apply andb_true_iff in E. Qed.

(** A plain relative path is a name the engine leaves as it is, also with a
    slash after it. *)
Lemma sanitizePath_plain (l : Path) :
  plain l = true ->
  sanitizePath (String.concat "/" l) = String.concat "/" l
  /\ sanitizePath (String.concat "/" l ++ "/") = (String.concat "/" l ++ "/")%string.
Proof.
  intros Hl. destruct l as [|x l]; [discriminate|].
  apply plain_cons in Hl as [Hp Hc].
  destruct (split_seps_concat (x :: l) false ltac:(discriminate) Hp) as [H1 H2].
  pose proof (portable_cons x l Hp) as (_ & _ & _ & Hx & _).
  unfold sanitizePath. rewrite H1, H2, concat_snoc_empty by discriminate.
  destruct (concat_head x l) as (tail & -> & Ht). split.
  - rewrite strip_drive_component, strip_up_component; auto.
  - rewrite append_assoc.
    assert (Ht' : (tail ++ "/")%string = "" \/ starts_with_slash (tail ++ "/") = true).
    { right. destruct Ht as [->|Ht]; [reflexivity|]. now destruct tail. }
    rewrite strip_drive_component, strip_up_component; auto.
Qed.

Lemma stored_name_plain (l : Path) :
  plain l = true ->
  stored_name (String.concat "/" l) = String.concat "/" l
  /\ stored_name (String.concat "/" l ++ "/") = (String.concat "/" l ++ "/")%string.
Proof.
  intros Hl. destruct (sanitizePath_plain l Hl) as [H1 H2].
  unfold stored_name. now rewrite !H1, !H2.
Qed.

Lemma concat_nonempty (x : string) (l : list string) :
  x <> "" -> String.concat "/" (x :: l) <> "".
Proof.
  intros Hx. destruct (concat_head x l) as (tail & -> & _).
  destruct x; [contradiction | discriminate].
Qed.

Lemma plain_nonempty (l : Path) : plain l = true -> String.concat "/" l <> "".
Proof.
  intros Hl. destruct l as [|x l]; [discriminate|].
  apply plain_cons in Hl as [Hp _]. apply portable_cons in Hp as (Hx & _).
  now apply concat_nonempty.
Qed.

Lemma eqb_nonempty (s : string) : s <> "" -> String.eqb s "" = false.
Proof. intros Hs. now apply String.eqb_neq. Qed.




(** A name that starts with a plain component and a slash keeps them, whatever
    follows. *)
Lemma sanitizePath_under (dest rest : string) :
  plain [dest] = true ->
  exists rest', sanitizePath (dest ++ String "/" rest) = (dest ++ String "/" rest')%string.
Proof.
  intros Hd. apply plain_cons in Hd as [Hp Hc].
  apply portable_cons in Hp as (Hne & Hs & Hb & Hx & _).
  unfold sanitizePath. rewrite split_seps_sep by auto. simpl append.
  pose proof (split_seps_nonempty rest "" true) as Hn.
  destruct (split_seps "" true rest) as [|y l]; [contradiction|].
  rewrite concat_cons.
  exists (String.concat "/" (y :: l)).
  rewrite strip_drive_component, strip_up_component; auto.
Qed.

Lemma stored_name_under (dest rest : string) :
  plain [dest] = true ->
  exists rest', stored_name (dest ++ String "/" rest) = (dest ++ String "/" rest')%string.
Proof.
  intros Hd. unfold stored_name.
  destruct (sanitizePath_under dest rest Hd) as (r1 & ->).
  destruct (sanitizePath_under dest r1 Hd) as (r2 & ->).
  destruct (sanitizePath_under dest r2 Hd) as (r3 & ->).
  now exists r3.
Qed.

Lemma ends_with_slash_component (x : string) :
  has_no_slash x = true -> ends_with_slash x = false.
Proof.
  induction x as [|c x IH]; [reflexivity|]. simpl. intros Hx.
  apply andb_true_iff in Hx as [Hc Hx]. apply negb_true_iff in Hc.
  destruct x; [exact Hc | now apply IH].
Qed.

Lemma ends_with_slash_app (a b : string) :
  b <> "" -> ends_with_slash (a ++ b) = ends_with_slash b.
Proof.
  intros Hb. induction a as [|c a IH]; [reflexivity|].
  simpl append. cbn [ends_with_slash].
  destruct (a ++ b)%string eqn:E; [|exact IH].
  destruct a; [simpl in E; contradiction | discriminate].
Qed.

(** A joined list of portable components does not end in a slash, so a
    directory of that name gets one. *)
Lemma trailingSlashIt_portable (l : Path) :
  l <> [] -> portable l = true ->
  trailingSlashIt (String.concat "/" l) = (String.concat "/" l ++ "/")%string.
Proof.
  intros Hne Hl. unfold trailingSlashIt.
  assert (E : ends_with_slash (String.concat "/" l) = false).
  { induction l as [|x l IH]; [contradiction|].
    apply portable_cons in Hl as (Hx & Hs & _ & _ & Hl).
    destruct l as [|y l].
    - simpl. now apply ends_with_slash_component.
    - rewrite concat_cons.
      change (x ++ String "/" (String.concat "/" (y :: l)))%string
        with (x ++ (String "/" "" ++ String.concat "/" (y :: l)))%string.
      rewrite <- append_assoc, ends_with_slash_app.
      + apply IH; [discriminate | exact Hl].
      + apply portable_cons in Hl as (Hy & _). now apply concat_nonempty. }
  now rewrite E.
Qed.

(* ================================================================== *)
(** * The calls of a run *)
(* ================================================================== *)

Section RunFacts.
Context `{Host}.

Lemma extend_nil (s : State) : extend s [] (user s) = s.
Proof. destruct s. unfold extend. simpl. now rewrite !app_nil_r. Qed.

Lemma extend_extend (s : State) (t1 t2 : list Call) (u1 u2 : U) :
  extend (extend s t1 u1) t2 u2 = extend s (t1 ++ t2) u2.
Proof.
  unfold extend. simpl. now rewrite flat_map_app, !app_assoc.
Qed.

(** One turn of the loop makes the calls of [step_calls], and nothing else
    changes. *)
Lemma process_entry_exec (o : ResolvedOptions) (cwd : Path) (d : Dirent) (s : State) :
  exec (process_entry o cwd d) s
  = extend s (fst (step_calls o cwd d (user s))) (snd (step_calls o cwd d (user s))).
Proof.
  unfold process_entry, step_calls.
  destruct (isFile d); simpl.
  2:{ unfold exec, ret. simpl. now rewrite extend_nil. }
  destruct (handleFile o) as [h|].
  - unfold exec, bind, call_handleFile.
    destruct (h d (user s)) as [[handled cmds] u'] eqn:Eh.
    destruct handled; simpl; unfold extend; simpl;
      rewrite ?app_nil_r, <- ?app_assoc; reflexivity.
  - unfold exec, bind, ret, archive_file, call, enqueue, extend. simpl.
    destruct s; reflexivity.
Qed.

Lemma for_of_exec (o : ResolvedOptions) (cwd : Path) (l : list Dirent) (s : State) :
  exec (for_of l (process_entry o cwd)) s
  = extend s (fst (loop_calls o cwd l (user s))) (snd (loop_calls o cwd l (user s))).
Proof.
  revert s. induction l as [|d l IH]; intros s; simpl.
  - unfold exec, ret. simpl. now rewrite extend_nil.
  - unfold exec, bind in *.
    pose proof (process_entry_exec o cwd d s) as Hd. unfold exec in Hd.
    destruct (process_entry o cwd d s) as [[] s1]. simpl in Hd. subst s1.
    rewrite IH.
    destruct (step_calls o cwd d (user s)) as [t1 u1]. simpl.
    destruct (loop_calls o cwd l u1) as [t2 u2]. simpl.
    apply extend_extend.
Qed.

(** The synchronous body of [zipOutput] makes the calls of [run_calls]; it
    leaves the file system and the console as they were, the write stream
    asked for, the archive finalized and the promise pending. *)
Lemma zipOutput_exec (o : ResolvedOptions) (c : ResolvedConfig) (s : State) :
  exec (zipOutput o c) s
  = {| fs := fs s; console := console s;
       user := snd (run_calls o c (fs s) (user s));
       trace := trace s ++ fst (run_calls o c (fs s) (user s));
       output := Some (zip_out_file o c);
       queue := flat_map cmds_of_call (fst (run_calls o c (fs s) (user s)));
       finalized := true; promise := Some Pending |}.
Proof.
  unfold zipOutput, run_calls.
  destruct (fast_path o) eqn:Efast.
  - unfold exec, bind, call_beforeClose. simpl.
    destruct (beforeClose o (user s)) as [cmds u']. simpl.
    rewrite <- !app_assoc, ?app_nil_r. reflexivity.
  - unfold exec, bind. simpl.
    match goal with
    | |- context [for_of ?l ?b ?s0] =>
        pose proof (for_of_exec o (path_resolve (root c)) l s0) as Hloop;
        unfold exec in Hloop; destruct (for_of l b s0) as [[] s1]
    end.
    simpl in Hloop. subst s1.
    unfold enumerated, exclude_array, working_dir, patterns_of.
    destruct (loop_calls _ _ _ _) as [loop u1]. simpl.
    unfold call_beforeClose. simpl.
    destruct (beforeClose o u1) as [cmds u2]. simpl.
    rewrite !flat_map_app. simpl.
    rewrite <- !app_assoc, ?app_nil_r. reflexivity.
Qed.

Lemma loop_call_ok_cons (cwd : Path) (d : Dirent) (l : list Dirent) (c : Call) :
  loop_call_ok cwd l c -> loop_call_ok cwd (d :: l) c.
Proof.
  destruct c; simpl; try easy.
  - intros [? ?]; auto.
  - intros (d' & ? & ? & ? & ?). exists d'. auto.
Qed.

Lemma step_calls_sound (o : ResolvedOptions) (cwd : Path) (d : Dirent) (u : U) (c : Call) :
  In c (fst (step_calls o cwd d u)) -> loop_call_ok cwd [d] c.
Proof.
  unfold step_calls. destruct (isFile d) eqn:Ef; simpl; [|easy].
  destruct (handleFile o) as [h|].
  - destruct (h d u) as [[[] cmds] u']; simpl.
    + intros [<-|[]]. simpl. auto.
    + intros [<-|[<-|[]]]; simpl; [auto|].
      exists d. unfold dirent_path. auto.
  - simpl. intros [<-|[]]. exists d. unfold dirent_path. simpl. auto.
Qed.

Lemma loop_calls_sound (o : ResolvedOptions) (cwd : Path) (l : list Dirent) (u : U) (c : Call) :
  In c (fst (loop_calls o cwd l u)) -> loop_call_ok cwd l c.
Proof.
  revert u. induction l as [|d l IH]; intros u; simpl; [easy|].
  pose proof (step_calls_sound o cwd d u c) as Hd.
  destruct (step_calls o cwd d u) as [t1 u1].
  specialize (IH u1). destruct (loop_calls o cwd l u1) as [t2 u2].
  simpl in *. intros Hc. apply in_app_or in Hc as [Hc|Hc].
  - specialize (Hd Hc). destruct c; simpl in *; try easy.
    + destruct Hd as [[<-|[]] ?]. auto.
    + destruct Hd as (d' & [<-|[]] & ? & ? & ?). exists d. auto.
  - now apply loop_call_ok_cons, IH.
Qed.

(** An enumerated regular file that no hook takes over is inserted. *)
Lemma loop_calls_inserts (o : ResolvedOptions) (cwd : Path) (l : list Dirent) (u : U) (d : Dirent) :
  In d l -> isFile d = true ->
  (forall h, handleFile o = Some h -> forall u', fst (fst (h d u')) = false) ->
  In (CallFile (dirent_path d) (path_relative cwd (dirent_path d)))
     (fst (loop_calls o cwd l u)).
Proof.
  intros Hin Hfile Hhook. revert u.
  induction l as [|d0 l IH]; intros u; simpl; [easy|].
  destruct (step_calls o cwd d0 u) as [t1 u1] eqn:E1.
  specialize (fun H => IH H u1).
  destruct (loop_calls o cwd l u1) as [t2 u2]. simpl in *.
  apply in_or_app. destruct Hin as [->|Hin]; [left | right; auto].
  unfold step_calls in E1. rewrite Hfile in E1. simpl in E1.
  destruct (handleFile o) as [h|] eqn:Eh.
  - specialize (Hhook h eq_refl u).
    destruct (h d u) as [[handled cmds] u']. simpl in Hhook. subst handled.
    inversion E1; subst. right. left. reflexivity.
  - inversion E1; subst. left. reflexivity.
Qed.

Lemma handed_app (t1 t2 : list Call) : handed (t1 ++ t2) = handed t1 ++ handed t2.
Proof. apply flat_map_app. Qed.

Lemma inserted_app (t1 t2 : list Call) : inserted (t1 ++ t2) = inserted t1 ++ inserted t2.
Proof. apply flat_map_app. Qed.

Lemma loop_calls_handed (o : ResolvedOptions) (h : HandleFile) (cwd : Path)
    (l : list Dirent) (u : U) :
  handleFile o = Some h ->
  handed (fst (loop_calls o cwd l u)) = filter isFile l.
Proof.
  intros Hh. revert u. induction l as [|d l IH]; intros u; [reflexivity|].
  simpl. unfold step_calls. rewrite Hh.
  destruct (isFile d); simpl.
  - destruct (h d u) as [[[] cmds] u1]; simpl;
      specialize (IH u1); destruct (loop_calls o cwd l u1) as [t2 u2];
      simpl in *; now rewrite IH.
  - specialize (IH u). destruct (loop_calls o cwd l u) as [t2 u2]. exact IH.
Qed.

Lemma loop_calls_no_hook (o : ResolvedOptions) (cwd : Path) (l : list Dirent) (u : U) :
  handleFile o = None ->
  loop_calls o cwd l u
  = (map (fun d => CallFile (dirent_path d) (path_relative cwd (dirent_path d)))
         (filter isFile l), u).
Proof.
  intros Hh. induction l as [|d l IH]; [reflexivity|].
  simpl. unfold step_calls. rewrite Hh.
  destruct (isFile d); simpl; rewrite IH; reflexivity.
Qed.

Lemma cmds_of_insertions (cwd : Path) (l : list Dirent) :
  flat_map cmds_of_call
    (map (fun d => CallFile (dirent_path d) (path_relative cwd (dirent_path d))) l)
  = map (default_insertion cwd) l.
Proof. induction l as [|d l IH]; [reflexivity | simpl; now rewrite IH]. Qed.

Lemma inserted_of_insertions (cwd : Path) (l : list Dirent) :
  inserted
    (map (fun d => CallFile (dirent_path d) (path_relative cwd (dirent_path d))) l)
  = map (fun d => (dirent_path d, path_relative cwd (dirent_path d))) l.
Proof. induction l as [|d l IH]; [reflexivity | simpl; now rewrite IH]. Qed.

Lemma answered_app (t1 t2 : list Call) :
  answered (t1 ++ t2) = answered t1 ++ answered t2.
Proof. apply flat_map_app. Qed.

Lemma in_inserted (tr : list Call) (p : Path) (nm : string) :
  In (p, nm) (inserted tr) <-> In (CallFile p nm) tr.
Proof.
  unfold inserted. rewrite in_flat_map. split.
  - intros (x & Hx & Hin). destruct x; simpl in Hin; try easy.
    destruct Hin as [[= -> ->]|[]]. exact Hx.
  - intros Hin. exists (CallFile p nm). split; [assumption | now left].
Qed.

(** With a hook, the loop hands every regular file to it, in order, and
    inserts the files for which it answered [false], in order. *)
Lemma loop_calls_answered (o : ResolvedOptions) (h : HandleFile) (cwd : Path)
    (l : list Dirent) (u : U) :
  handleFile o = Some h ->
  map fst (answered (fst (loop_calls o cwd l u))) = filter isFile l
  /\ inserted (fst (loop_calls o cwd l u))
     = map (fun d => (dirent_path d, path_relative cwd (dirent_path d)))
           (map fst (filter (fun a => negb (snd a))
                            (answered (fst (loop_calls o cwd l u))))).
Proof.
  intros Hh. revert u. induction l as [|d l IH]; intros u; [now split|].
  simpl. unfold step_calls. rewrite Hh.
  destruct (isFile d); simpl.
  - destruct (h d u) as [[[] cmds] u1]; simpl;
      destruct (IH u1) as [IHa IHi];
      destruct (loop_calls o cwd l u1) as [t2 u2];
      simpl in *; rewrite IHa, IHi; split; reflexivity.
  - destruct (IH u) as [IHa IHi].
    destruct (loop_calls o cwd l u) as [t2 u2]. now split.
Qed.

(** Every call of the hook in the loop carries what the hook answered, and
    every insertion made beside a hook is for an entry the hook has just
    answered [false] for. *)
Lemma loop_calls_answers (o : ResolvedOptions) (h : HandleFile) (cwd : Path)
    (l : list Dirent) (u : U) (x : Call) :
  handleFile o = Some h -> In x (fst (loop_calls o cwd l u)) ->
  match x with
  | CallHandleFile d handled cmds => exists u0, fst (h d u0) = (handled, cmds)
  | CallFile p nm =>
      exists d u0, In d l /\ isFile d = true /\ p = dirent_path d
                   /\ nm = path_relative cwd p /\ fst (fst (h d u0)) = false
  | _ => False
  end.
Proof.
  intros Hh. revert u. induction l as [|d l IH]; intros u; simpl; [easy|].
  unfold step_calls. rewrite Hh.
  destruct (isFile d) eqn:Ef; simpl.
  - destruct (h d u) as [[handled cmds] u1] eqn:Eh.
    specialize (IH u1).
    assert (Hrest : In x (fst (loop_calls o cwd l u1)) ->
              match x with
              | CallHandleFile d0 handled0 cmds0 =>
                  exists u0, fst (h d0 u0) = (handled0, cmds0)
              | CallFile p nm =>
                  exists d0 u0, In d0 (d :: l) /\ isFile d0 = true /\ p = dirent_path d0
                                /\ nm = path_relative cwd p /\ fst (fst (h d0 u0)) = false
              | _ => False
              end).
    { intros Hin. specialize (IH Hin). destruct x; try easy.
      destruct IH as (d0 & u0 & Hd0 & ?). exists d0, u0. simpl. auto. }
    destruct handled; simpl;
      destruct (loop_calls o cwd l u1) as [t2 u2]; simpl in *.
    + intros [<-|Hin]; [|now apply Hrest].
      exists u. now rewrite Eh.
    + intros [<-|[<-|Hin]]; [| |now apply Hrest].
      * exists u. now rewrite Eh.
      * exists d, u. rewrite Eh. unfold dirent_path. simpl. auto 10.
  - specialize (IH u). destruct (loop_calls o cwd l u) as [t2 u2]. simpl in *.
    intros Hin. specialize (IH Hin). destruct x; try easy.
    destruct IH as (d0 & u0 & Hd0 & ?). exists d0, u0. auto.
Qed.

Lemma globSync_spec (pat : Patterns) (cwd : Path) (excl : list string) (files : FS) (d : Dirent) :
  In d (globSync pat cwd excl files) <->
  exists e, In e files /\ dirent e = d
    /\ existsb (fun p => glob_matches p (relative_segments cwd (entry_path e)))
               (patterns_of pat) = true
    /\ pruned excl (relative_segments cwd (entry_path e)) = false.
Proof.
  unfold globSync. rewrite in_map_iff. split.
  - intros (e & Hd & He). apply filter_In in He as [He Hm].
    apply andb_true_iff in Hm as [Hi Hx]. apply negb_true_iff in Hx.
    exists e. auto.
  - intros (e & He & Hd & Hi & Hx). exists e. split; [assumption|].
    apply filter_In. split; [assumption|]. now rewrite Hi, Hx.
Qed.

(** A path is not pruned exactly when no [exclude] pattern matches it or a
    directory on the way to it. *)
Lemma pruned_false (excl : list string) (rel : list string) :
  pruned excl rel = false <->
  forall q dir, In q excl -> In dir (prefixes rel) -> glob_matches q dir = false.
Proof.
  unfold pruned. split.
  - intros Hp q dir Hq Hdir.
    destruct (glob_matches q dir) eqn:E; [|reflexivity].
    assert (Ht : existsb (fun dir => existsb (fun q => glob_matches q dir) excl)
                         (prefixes rel) = true).
    { apply existsb_exists. exists dir. split; [assumption|].
      apply existsb_exists. eauto. }
    congruence.
  - intros Hall.
    destruct (existsb _ (prefixes rel)) eqn:E; [|reflexivity].
    apply existsb_exists in E as (dir & Hdir & E).
    apply existsb_exists in E as (q & Hq & E).
    rewrite (Hall q dir Hq Hdir) in E. discriminate.
Qed.

End RunFacts.

(* ================================================================== *)
(** * What the engine makes of a file *)
(* ================================================================== *)

Lemma strip_prefix_Some (dir p rel : Path) :
  strip_prefix dir p = Some rel -> p = dir ++ rel.
Proof.
  revert p. induction dir as [|d dir IH]; intros p; simpl.
  - now intros [= ->].
  - destruct p as [|a p]; [discriminate|].
    destruct (String.eqb d a) eqn:E; [|discriminate].
    apply String.eqb_eq in E. subst a. intros Hs. now rewrite (IH _ Hs).
Qed.

Lemma lookup_Some (p : Path) (files : FS) (e : FsEntry) :
  lookup p files = Some e -> In e files /\ entry_path e = p.
Proof.
  unfold lookup. intros Hl. apply find_some in Hl as [Hin Hp].
  apply path_eqb_eq in Hp. auto.
Qed.

Lemma entry_of_file (e : FsEntry) (nm : string) :
  isFile (dirent e) = true -> stored_name nm <> "" ->
  entry_of e nm
  = [ {| entryName := stored_name nm; backing := Some (entry_path e);
         content := data e |} ].
Proof.
  unfold entry_of, isFile. intros Hf Hn.
  destruct (fileType (dirent e)); try discriminate.
  now rewrite eqb_nonempty.
Qed.

(** Every entry made of a file-system entry is backed by it and carries the
    name the engine stores for the name asked for, with a slash added for a
    directory. *)
Lemma entry_of_spec (e : FsEntry) (nm : string) (z : ZipEntry) :
  In z (entry_of e nm) ->
  backing z = Some (entry_path e)
  /\ match fileType (dirent e) with
     | RegularFile => entryName z = stored_name nm /\ content z = data e
     | DirectoryType => entryName z = stored_name (trailingSlashIt nm) /\ content z = ""
     | SymbolicLink => entryName z = stored_name nm
     | OtherType => False
     end.
Proof.
  unfold entry_of.
  destruct (fileType (dirent e));
    try (match goal with
         | |- context [String.eqb ?x ""] => destruct (String.eqb x "")
         end);
    simpl; intros Hz; try easy; destruct Hz as [<-|[]]; simpl; auto.
Qed.

(** A file command for a regular file, under a plain relative name, yields an
    entry of that name with the bytes of the file. *)
Lemma file_entry (files : FS) (p : Path) (rel : Path) (e : FsEntry) :
  lookup p files = Some e -> isFile (dirent e) = true -> plain rel = true ->
  entries_of_cmd files (File p (String.concat "/" rel))
  = [ {| entryName := String.concat "/" rel; backing := Some p; content := data e |} ].
Proof.
  intros Hl Hf Hrel. simpl. rewrite Hl.
  destruct (lookup_Some p files e Hl) as [_ Hp].
  pose proof (plain_nonempty rel Hrel) as Hne.
  destruct (stored_name_plain rel Hrel) as [Hs _].
  unfold file_name. rewrite (eqb_nonempty _ Hne).
  rewrite entry_of_file by (try assumption; now rewrite Hs).
  now rewrite Hs, Hp.
Qed.

(* ================================================================== *)
(** * The two paths of the assembly *)
(* ================================================================== *)

Section Paths.
Context `{Host}.

Lemma fast_path_true_iff (o : ResolvedOptions) :
  fast_path o = true
  <-> include o = Str "dist/**/*" /\ exclude o = Arr [] /\ handleFile o = None.
Proof.
  unfold fast_path, strict_eq, is_empty_array, is_null. split.
  - intros E. apply andb_true_iff in E as [E E3]. apply andb_true_iff in E as [E1 E2].
    destruct (include o) as [i|]; [|discriminate].
    apply String.eqb_eq in E1. subst i.
    destruct (exclude o) as [|[|x l]]; try discriminate.
    destruct (handleFile o); [discriminate|]. auto.
  - intros (-> & -> & ->). reflexivity.
Qed.

Lemma trace_of_run (o : ResolvedOptions) (c : ResolvedConfig) (files : FS) (u : U) :
  trace (exec (zipOutput o c) (initial files u)) = fst (run_calls o c files u).
Proof. rewrite zipOutput_exec. reflexivity. Qed.

Lemma queue_of_run (o : ResolvedOptions) (c : ResolvedConfig) (files : FS) (u : U) :
  queue (exec (zipOutput o c) (initial files u))
  = flat_map cmds_of_call (fst (run_calls o c files u)).
Proof. rewrite zipOutput_exec. reflexivity. Qed.


(** The calls of a run on the fast path. *)
Lemma fast_run (o : ResolvedOptions) (c : ResolvedConfig) (files : FS) (u : U) :
  fast_path o = true ->
  fst (run_calls o c files u)
  = [CallCreateWriteStream (zip_out_file o c); CallPipe;
     CallDirectory (output_dir c) "dist";
     CallBeforeClose (fst (beforeClose o u)); CallFinalize].
Proof.
  intros Hfast. unfold run_calls. rewrite Hfast.
  now destruct (beforeClose o u) as [cmds u'].
Qed.

(** The calls of a run on the general path: the opening, the enumeration,
    the calls of the loop, and the closing. *)
Lemma general_run (o : ResolvedOptions) (c : ResolvedConfig) (files : FS) (u : U) :
  fast_path o = false ->
  let loop := loop_calls o (working_dir c) (enumerated o c files) u in
  fst (run_calls o c files u)
  = [CallCreateWriteStream (zip_out_file o c); CallPipe;
     CallGlobSync (include o) (working_dir c) (exclude_array o)]
    ++ fst loop
    ++ [CallBeforeClose (fst (beforeClose o (snd loop))); CallFinalize].
Proof.
  intros Hgeneral loop. unfold run_calls. rewrite Hgeneral. subst loop.
  destruct (loop_calls _ _ _ _) as [loop u1]. cbn [fst snd].
  now destruct (beforeClose o u1) as [cmds u2].
Qed.

(** C2.  The assembly takes the fast path exactly when [include] is the
    default pattern, [exclude] is the empty list and no [handleFile] is
    configured.  On the fast path the run is five calls, the third of which
    adds the output directory as one directory entry under the top-level name
    ["dist"], and that command heads the archive's queue, followed only by
    what [beforeClose] adds; no call of the enumeration is made (no
    [globSync], no per-entry hook call, no per-entry insertion).  In every
    other configuration no directory entry is added: [globSync] is called,
    the loop runs over what it returned, each of its calls is a hook call or
    a default insertion for an enumerated regular file, every such file is
    handed to the hook (or, without a hook, inserted), and the queue holds
    the commands of these calls in their order, then those of
    [beforeClose]. *)
Theorem fast_path_iff_default_configuration
    (o : ResolvedOptions) (c : ResolvedConfig) (files : FS) (u : U) :
  let s := exec (zipOutput o c) (initial files u) in
  let cwd := working_dir c in
  let default :=
    include o = Str "dist/**/*" /\ exclude o = Arr [] /\ handleFile o = None in
  let regular := filter isFile (enumerated o c files) in
  ((trace s = [CallCreateWriteStream (zip_out_file o c); CallPipe;
               CallDirectory (output_dir c) "dist";
               CallBeforeClose (fst (beforeClose o u)); CallFinalize]
    /\ queue s = Directory (output_dir c) "dist" :: fst (beforeClose o u))
   <-> default)
  /\ ((In (CallDirectory (output_dir c) "dist") (trace s)
       /\ (forall x, In x (trace s) -> is_enumeration x = false))
      <-> default)
  /\ ((In (CallGlobSync (include o) cwd (exclude_array o)) (trace s)
       /\ (forall d dest, ~ In (CallDirectory d dest) (trace s)))
      <-> ~ default)
  /\ (~ default ->
      exists (loop : list Call) (u1 : U),
        trace s = [CallCreateWriteStream (zip_out_file o c); CallPipe;
                   CallGlobSync (include o) cwd (exclude_array o)]
                  ++ loop
                  ++ [CallBeforeClose (fst (beforeClose o u1)); CallFinalize]
        /\ queue s = flat_map cmds_of_call loop ++ fst (beforeClose o u1)
        /\ (forall x, In x loop -> loop_call_ok cwd (enumerated o c files) x)
        /\ match handleFile o with
           | Some _ => handed loop = regular
           | None =>
               inserted loop
               = map (fun d => (dirent_path d, path_relative cwd (dirent_path d)))
                     regular
           end).
Proof.
  intros s cwd default regular. subst s. rewrite trace_of_run, queue_of_run.
  pose proof (fast_path_true_iff o) as Hiff. fold default in Hiff.
  destruct (fast_path o) eqn:Efast.
  - assert (Hd : default) by now apply Hiff.
    rewrite (fast_run o c files u Efast). simpl. rewrite app_nil_r.
    split; [|split; [|split]].
    + split; [intros _; exact Hd | intros _; now split].
    + split; [intros _; exact Hd|]. intros _. split; [auto|].
      intros x [<-|[<-|[<-|[<-|[<-|[]]]]]]; reflexivity.
    + split; [|intros Hn; now destruct Hn].
      intros [[E|[E|[E|[E|[E|[]]]]]] _]; discriminate.
    + intros Hn. now destruct Hn.
  - assert (Hd : ~ default) by (intros Hd; apply Hiff in Hd; discriminate).
    pose proof (general_run o c files u Efast) as Hrun. cbv zeta in Hrun.
    rewrite Hrun.
    pose proof (loop_calls_sound o (working_dir c) (enumerated o c files) u) as Hsound.
    set (loop := loop_calls o (working_dir c) (enumerated o c files) u) in *.
    split; [|split; [|split]].
    + split; [|intros Hy; now destruct Hd]. intros [E _]. discriminate E.
    + split; [|intros Hy; now destruct Hd]. intros [_ Hnone].
      specialize (Hnone _ (or_intror (or_intror (or_introl eq_refl)))).
      discriminate.
    + split; [intros _; exact Hd|]. intros _. split; [simpl; auto|].
      intros d dest [E|[E|[E|Hin]]]; try discriminate.
      change ([] ++ ?l) with l in Hin.
      apply in_app_or in Hin as [Hin|[E|[E|[]]]]; try discriminate.
      exact (Hsound _ Hin).
    + intros _. exists (fst loop), (snd loop).
      split; [reflexivity|]. split; [|split].
      * simpl. rewrite flat_map_app. simpl. now rewrite app_nil_r.
      * exact Hsound.
      * subst loop. destruct (handleFile o) as [h|] eqn:Eh.
        -- now apply (loop_calls_handed o h).
        -- rewrite (loop_calls_no_hook o _ _ _ Eh). apply inserted_of_insertions.
Qed.

(** C3.  On the general path, for the regular files among the enumerated
    entries, in the order of the enumeration.  The archive's queue is what
    the calls of the run put there, in their order: whatever a hook inserts
    stands.  Without a [handleFile] hook every such file is inserted.  With a
    hook every such file is handed to it, once, and the files inserted are
    those for which it answered [false], no other: a file for which the hook
    answers [true] whenever it is asked is not inserted, one for which it
    always answers [false] is.  The insertion is under the path relative to
    the root directory, which below the root is the remaining components,
    separated by ["/"]; when that path is plain and the file is there when
    the engine reads it, the archive has the entry under this name, with the
    bytes of the file. *)
Theorem handleFile_decides_default_insertion
    (o : ResolvedOptions) (c : ResolvedConfig) (files : FS) (u : U) :
  fast_path o = false ->
  let s := exec (zipOutput o c) (initial files u) in
  let cwd := working_dir c in
  let regular := filter isFile (enumerated o c files) in
  let insertion := fun d => (dirent_path d, path_relative cwd (dirent_path d)) in
  queue s = flat_map cmds_of_call (trace s)
  /\ (handleFile o = None ->
      answered (trace s) = [] /\ inserted (trace s) = map insertion regular)
  /\ (forall h, handleFile o = Some h ->
        map fst (answered (trace s)) = regular
        /\ inserted (trace s)
           = map insertion
                 (map fst (filter (fun a => negb (snd a)) (answered (trace s))))
        /\ (forall d handled cmds,
              In (CallHandleFile d handled cmds) (trace s) ->
              exists u0, fst (h d u0) = (handled, cmds))
        /\ (forall d,
              (forall d' u0, dirent_path d' = dirent_path d ->
                             fst (fst (h d' u0)) = true) ->
              forall nm, ~ In (dirent_path d, nm) (inserted (trace s)))
        /\ (forall d,
              In d regular -> (forall u0, fst (fst (h d u0)) = false) ->
              In (insertion d) (inserted (trace s))))
  /\ (forall d rel,
        dirent_path d = cwd ++ rel -> snd (insertion d) = String.concat "/" rel)
  /\ (forall files' p nm rel e,
        In (p, nm) (inserted (trace s)) -> p = cwd ++ rel -> plain rel = true ->
        lookup p files' = Some e -> isFile (dirent e) = true ->
        nm = String.concat "/" rel
        /\ In {| entryName := nm; backing := Some p; content := data e |}
              (archive_entries files' (queue s))).
Proof.
  intros Hgeneral s cwd regular insertion. subst s.
  rewrite queue_of_run, trace_of_run.
  pose proof (general_run o c files u Hgeneral) as Hrun. cbv zeta in Hrun.
  rewrite Hrun. fold cwd.
  set (loop := loop_calls o cwd (enumerated o c files) u) in *.
  assert (Ha : answered
                 ([CallCreateWriteStream (zip_out_file o c); CallPipe;
                   CallGlobSync (include o) cwd (exclude_array o)]
                  ++ fst loop
                  ++ [CallBeforeClose (fst (beforeClose o (snd loop))); CallFinalize])
               = answered (fst loop)).
  { rewrite !answered_app. simpl. now rewrite app_nil_r. }
  assert (Hi : inserted
                 ([CallCreateWriteStream (zip_out_file o c); CallPipe;
                   CallGlobSync (include o) cwd (exclude_array o)]
                  ++ fst loop
                  ++ [CallBeforeClose (fst (beforeClose o (snd loop))); CallFinalize])
               = inserted (fst loop)).
  { rewrite !inserted_app. simpl. now rewrite app_nil_r. }
  assert (Hcall : forall x,
            In x ([CallCreateWriteStream (zip_out_file o c); CallPipe;
                   CallGlobSync (include o) cwd (exclude_array o)]
                  ++ fst loop
                  ++ [CallBeforeClose (fst (beforeClose o (snd loop))); CallFinalize]) ->
            is_enumeration x = true -> (forall a b e, x <> CallGlobSync a b e) ->
            In x (fst loop)).
  { intros x [<-|[<-|[<-|Hin]]] He Hn; try discriminate.
    - now destruct (Hn (include o) cwd (exclude_array o)).
    - change ([] ++ ?l) with l in Hin.
      apply in_app_or in Hin as [Hin|[<-|[<-|[]]]]; [assumption | discriminate..]. }
  rewrite Ha, Hi.
  split; [reflexivity|]. split; [|split; [|split]].
  - intros Hnone. subst loop. rewrite (loop_calls_no_hook o _ _ _ Hnone). simpl.
    split; [|apply inserted_of_insertions].
    induction (filter isFile (enumerated o c files)) as [|d l IH];
      [reflexivity | exact IH].
  - intros h Hh.
    destruct (loop_calls_answered o h cwd (enumerated o c files) u Hh) as [Hhanded Hins].
    fold loop in Hhanded, Hins.
    split; [exact Hhanded|]. split; [exact Hins|]. split; [|split].
    + intros d handled cmds Hin.
      apply Hcall in Hin; [|reflexivity|discriminate].
      exact (loop_calls_answers o h cwd _ u _ Hh Hin).
    + intros d Htrue nm Hin. apply in_inserted in Hin.
      pose proof (loop_calls_answers o h cwd _ u _ Hh Hin)
        as (d' & u0 & _ & _ & Hp & _ & Hfalse).
      rewrite (Htrue d' u0 (eq_sym Hp)) in Hfalse. discriminate.
    + intros d Hd Hfalse. apply filter_In in Hd as [Hd Hf].
      apply in_inserted.
      apply (loop_calls_inserts o cwd (enumerated o c files) u d Hd Hf).
      intros h' Hh' u'. rewrite Hh in Hh'. injection Hh' as <-. apply Hfalse.
  - intros d rel E. simpl. rewrite E. apply path_relative_below.
  - intros files' p nm rel e Hin Hp Hrel Hl Hf.
    apply in_inserted in Hin.
    pose proof (loop_calls_sound o cwd (enumerated o c files) u _ Hin)
      as (d & _ & _ & _ & Hnm).
    assert (E : nm = String.concat "/" rel).
    { rewrite Hnm, Hp. apply path_relative_below. }
    split; [exact E|].
    unfold archive_entries. apply in_flat_map. exists (File p nm). split.
    + apply in_flat_map. exists (CallFile p nm). split; [|now left].
      apply in_or_app. right. apply in_or_app. now left.
    + rewrite E, (file_entry files' p rel e Hl Hf Hrel). now left.
Qed.


End Paths.

(* ================================================================== *)
(** * The completion hook and the event handlers *)
(* ================================================================== *)

Section Handlers.
Context `{Host}.

(** C5.  When the completion hook is called with an error, the handler
    returns at once and the state is what it was: no write stream is asked
    for (so no file is created when the event loop turns), no hook is called,
    nothing is logged.  Without an error, and with a resolved configuration,
    the same handler goes through [zipOutput] and asks for the archive's
    write stream. *)
Theorem failed_build_skips_assembly
    (plugin : VitePluginZip) (err : Err) (s : State) :
  closeBundle_handler plugin (Some err) s = (Skipped, s)
  /\ (forall files u,
        exec stream_open
             (exec (closeBundle_handler plugin (Some err)) (initial files u))
        = initial files u)
  /\ (forall viteConfig,
        config plugin = Some viteConfig ->
        fst (closeBundle_handler plugin None s) = Awaiting
        /\ output (exec (closeBundle_handler plugin None) s)
           = Some (zip_out_file (pluginOptions plugin) viteConfig)).
Proof.
  split; [reflexivity|]. split; [reflexivity|].
  intros viteConfig Hc. unfold closeBundle_handler. rewrite Hc.
  unfold exec, bind, ret.
  pose proof (zipOutput_exec (pluginOptions plugin) viteConfig s) as Hz.
  unfold exec in Hz.
  destruct (zipOutput (pluginOptions plugin) viteConfig s) as [[] s1].
  simpl in *. subst s1. split; reflexivity.
Qed.

Lemma for_of_app {A : Type} (l1 l2 : list A) (body : A -> M unit) (s : State) :
  exec (for_of (l1 ++ l2) body) s = exec (for_of l2 body) (exec (for_of l1 body) s).
Proof.
  revert s. induction l1 as [|x l1 IH]; intros s; simpl; [reflexivity|].
  unfold exec, bind in *. destruct (body x s) as [[] s1]. apply IH.
Qed.

Lemma for_of_cons {A : Type} (x : A) (l : list A) (body : A -> M unit) (s : State) :
  exec (for_of (x :: l) body) s = exec (for_of l body) (exec (body x) s).
Proof. simpl. unfold exec, bind. now destruct (body x s) as [[] s1]. Qed.

Lemma code_is_ENOENT (err : Err) :
  code_is err "ENOENT" = true <-> code err = Some "ENOENT".
Proof.
  unfold code_is. destruct (code err) as [c|]; [|easy]. split.
  - intros E. apply String.eqb_eq in E. now subst.
  - intros [= ->]. reflexivity.
Qed.

Lemma deliver_benign (o : ResolvedOptions) (ev : EngineEvent) (s : State) :
  benign ev ->
  promise (exec (deliver o ev) s) = promise s
  /\ exists err, ev = Warning err /\ console (exec (deliver o ev) s) = console s ++ [LogErr err].
Proof.
  intros (err & -> & Hc). simpl. unfold on_warning.
  apply code_is_ENOENT in Hc. rewrite Hc. split; [reflexivity|].
  exists err. split; reflexivity.
Qed.

Lemma deliver_fatal (o : ResolvedOptions) (ev : EngineEvent) (err : Err) (s : State) :
  fatal ev err -> promise s = Some Pending ->
  promise (exec (deliver o ev) s) = Some (Rejected err).
Proof.
  intros [[-> Hc] | ->] Hp; simpl.
  - unfold on_warning. destruct (code_is err "ENOENT") eqn:E.
    + apply code_is_ENOENT in E. contradiction.
    + unfold exec, reject. now rewrite Hp.
  - unfold on_error, exec, reject. now rewrite Hp.
Qed.

Lemma deliver_settled (o : ResolvedOptions) (ev : EngineEvent) (s : State) :
  promise s <> Some Pending -> promise (exec (deliver o ev) s) = promise s.
Proof.
  intros Hp. destruct ev as [err|err|n]; simpl.
  - unfold on_warning. destruct (code_is err "ENOENT"); [reflexivity|].
    unfold exec, reject.
    destruct (promise s) as [[]|] eqn:E; simpl; congruence.
  - unfold on_error, exec, reject.
    destruct (promise s) as [[]|] eqn:E; simpl; congruence.
  - unfold on_close, exec, bind, resolve.
    destruct (silent o); simpl;
      destruct (promise s) as [[]|] eqn:E; simpl; congruence.
Qed.

Lemma events_settled (o : ResolvedOptions) (evs : list EngineEvent) (s : State) :
  promise s <> Some Pending ->
  promise (exec (for_of evs (deliver o)) s) = promise s.
Proof.
  revert s. induction evs as [|ev evs IH]; intros s Hp; [reflexivity|].
  rewrite for_of_cons, IH; rewrite deliver_settled; auto.
Qed.

Lemma events_benign (o : ResolvedOptions) (evs : list EngineEvent) (s : State) :
  Forall benign evs ->
  promise (exec (for_of evs (deliver o)) s) = promise s.
Proof.
  intros Hb. revert s. induction Hb as [|ev evs Hev _ IH]; intros s; [reflexivity|].
  rewrite for_of_cons, IH. now apply deliver_benign.
Qed.

Lemma close_fulfils (o : ResolvedOptions) (n : N) (s : State) :
  promise s = Some Pending ->
  promise (exec (on_close o n) s) = Some Fulfilled.
Proof.
  intros Hp. unfold on_close, exec, bind, resolve.
  destruct (silent o); simpl; now rewrite Hp.
Qed.

Lemma deliver_console (o : ResolvedOptions) (ev : EngineEvent) (s : State) :
  console (exec (deliver o ev) s)
  = console s
    ++ match ev with
       | Warning err => if code_is err "ENOENT" then [LogErr err] else []
       | Error _ => []
       | Close pointer => if silent o then [] else [summary_line o pointer]
       end.
Proof.
  destruct ev as [err|err|n]; simpl.
  - unfold on_warning. destruct (code_is err "ENOENT"); [reflexivity|].
    unfold exec, reject. destruct (promise s) as [[]|]; simpl;
      now rewrite app_nil_r.
  - unfold on_error, exec, reject. destruct (promise s) as [[]|]; simpl;
      now rewrite app_nil_r.
  - unfold on_close, exec, bind, resolve.
    destruct (silent o); simpl; destruct (promise s) as [[]|]; simpl;
      rewrite ?app_nil_r; reflexivity.
Qed.

Lemma deliver_keeps_archive (o : ResolvedOptions) (ev : EngineEvent) (s : State) :
  fs (exec (deliver o ev) s) = fs s /\ queue (exec (deliver o ev) s) = queue s.
Proof.
  destruct ev as [err|err|n]; simpl.
  - unfold on_warning. destruct (code_is err "ENOENT"); [now split|].
    unfold exec, reject. destruct (promise s) as [[]|]; now split.
  - unfold on_error, exec, reject. destruct (promise s) as [[]|]; now split.
  - unfold on_close, exec, bind, resolve.
    destruct (silent o); simpl; destruct (promise s) as [[]|]; now split.
Qed.

Lemma warnings_console (o : ResolvedOptions) (evs : list EngineEvent) (s : State) :
  Forall (fun ev => forall n, ev <> Close n) evs ->
  console (exec (for_of evs (deliver o)) s) = console s ++ warning_logs evs
  /\ fs (exec (for_of evs (deliver o)) s) = fs s
  /\ queue (exec (for_of evs (deliver o)) s) = queue s.
Proof.
  intros Hev. revert s. induction Hev as [|ev evs Hn _ IH]; intros s.
  - simpl. unfold exec, ret. simpl. now rewrite app_nil_r.
  - rewrite for_of_cons. destruct (IH (exec (deliver o ev) s)) as (Hc & Hf & Hq).
    destruct (deliver_keeps_archive o ev s) as [Hf' Hq'].
    rewrite Hc, Hf, Hq, Hf', Hq', deliver_console.
    split; [|now split]. rewrite <- app_assoc. f_equal.
    destruct ev as [err|err|n]; simpl; try reflexivity.
    now destruct (Hn n).
Qed.

Lemma deliver_keeps_finalized (o : ResolvedOptions) (ev : EngineEvent) (s : State) :
  finalized (exec (deliver o ev) s) = finalized s.
Proof.
  destruct ev as [err|err|n]; simpl.
  - unfold on_warning. destruct (code_is err "ENOENT"); [reflexivity|].
    unfold exec, reject. now destruct (promise s) as [[]|].
  - unfold on_error, exec, reject. now destruct (promise s) as [[]|].
  - unfold on_close, exec, bind, resolve.
    destruct (silent o); simpl; now destruct (promise s) as [[]|].
Qed.

Lemma events_keep_finalized (o : ResolvedOptions) (evs : list EngineEvent) (s : State) :
  finalized (exec (for_of evs (deliver o)) s) = finalized s.
Proof.
  revert s. induction evs as [|ev evs IH]; intros s; [reflexivity|].
  now rewrite for_of_cons, IH, deliver_keeps_finalized.
Qed.

Lemma warning_logs_app (l1 l2 : list EngineEvent) :
  warning_logs (l1 ++ l2) = warning_logs l1 ++ warning_logs l2.
Proof. apply flat_map_app. Qed.

Lemma fatal_logs_nothing (ev : EngineEvent) (err : Err) :
  fatal ev err -> warning_logs [ev] = [] /\ forall n, ev <> Close n.
Proof.
  intros [[-> Hc] | ->]; simpl.
  - destruct (code_is err "ENOENT") eqn:E.
    + apply code_is_ENOENT in E. contradiction.
    + split; [reflexivity | discriminate].
  - split; [reflexivity | discriminate].
Qed.

Lemma benign_not_close (evs : list EngineEvent) :
  Forall benign evs -> Forall (fun ev => forall n, ev <> Close n) evs.
Proof.
  intros Hb. eapply Forall_impl; [|exact Hb].
  intros ev (err & -> & _). discriminate.
Qed.

(** C6, as the code has it.  While the promise of the assembly is pending: a
    warning whose code is [ENOENT] is logged and leaves the promise pending,
    and after any number of such warnings the closing of the output stream
    fulfils it; any other warning, and any error, rejects the promise with
    that error, and nothing that is delivered afterwards (not even the
    closing of the stream) turns the rejection into a success.  But a
    rejection stops nothing: the handlers call no [abort], the archive stays
    finalized with its queue as it was, later [ENOENT] warnings are logged as
    before, and when the stream closes the size line is logged (unless
    [silent] is set) for the archive that has been written. *)
Theorem ENOENT_is_logged_other_failures_reject
    (o : ResolvedOptions) (s : State) :
  promise s = Some Pending ->
  (forall err, code err = Some "ENOENT" ->
     console (exec (on_warning err) s) = console s ++ [LogErr err]
     /\ promise (exec (on_warning err) s) = Some Pending)
  /\ (forall evs pointer, Forall benign evs ->
        promise (exec (for_of (evs ++ [Close pointer]) (deliver o)) s)
        = Some Fulfilled)
  /\ (forall err, code err <> Some "ENOENT" ->
        promise (exec (on_warning err) s) = Some (Rejected err))
  /\ (forall err, promise (exec (on_error err) s) = Some (Rejected err))
  /\ (forall evs ev err rest, Forall benign evs -> fatal ev err ->
        promise (exec (for_of (evs ++ ev :: rest) (deliver o)) s)
        = Some (Rejected err))
  /\ (forall evs ev err rest pointer,
        Forall benign evs -> fatal ev err ->
        Forall (fun ev' => forall n, ev' <> Close n) rest ->
        let s' := exec (for_of (evs ++ ev :: rest ++ [Close pointer]) (deliver o)) s in
        promise s' = Some (Rejected err)
        /\ console s'
           = console s ++ warning_logs evs ++ warning_logs rest
             ++ (if silent o then [] else [summary_line o pointer])
        /\ queue s' = queue s /\ finalized s' = finalized s /\ fs s' = fs s).
Proof.
  intros Hp.
  assert (Hfatal : forall evs ev err rest, Forall benign evs -> fatal ev err ->
            promise (exec (for_of (evs ++ ev :: rest) (deliver o)) s)
            = Some (Rejected err)).
  { intros evs ev err rest Hb Hf. rewrite for_of_app, for_of_cons.
    rewrite events_settled.
    + apply deliver_fatal; [assumption|]. now rewrite events_benign.
    + rewrite (deliver_fatal o ev err); [discriminate | assumption |].
      now rewrite events_benign. }
  split; [|split; [|split; [|split; [|split]]]].
  - intros err Hc. unfold on_warning. apply code_is_ENOENT in Hc.
    rewrite Hc. split; [reflexivity | exact Hp].
  - intros evs pointer Hb. rewrite for_of_app, for_of_cons. simpl.
    apply close_fulfils. now rewrite events_benign.
  - intros err Hc.
    apply (deliver_fatal o (Warning err) err s); [left; auto | assumption].
  - intros err.
    apply (deliver_fatal o (Error err) err s); [now right | assumption].
  - exact Hfatal.
  - intros evs ev err rest pointer Hb Hf Hrest s'.
    split; [apply (Hfatal evs ev err (rest ++ [Close pointer]) Hb Hf)|].
    destruct (fatal_logs_nothing ev err Hf) as [Hlog Hnc].
    assert (Hall : Forall (fun ev' => forall n, ev' <> Close n) (evs ++ ev :: rest)).
    { apply Forall_app. split; [now apply benign_not_close|]. now constructor. }
    subst s'.
    replace (evs ++ ev :: rest ++ [Close pointer])
      with ((evs ++ ev :: rest) ++ [Close pointer])
      by (now rewrite <- app_assoc).
    rewrite for_of_app, for_of_cons.
    change (exec (for_of [] (deliver o)) ?x) with x.
    destruct (warnings_console o (evs ++ ev :: rest) s Hall) as (Hc & Hfs & Hq).
    destruct (deliver_keeps_archive o (Close pointer)
                (exec (for_of (evs ++ ev :: rest) (deliver o)) s)) as [Hfs' Hq'].
    rewrite deliver_console, deliver_keeps_finalized, events_keep_finalized.
    rewrite Hc, Hfs', Hq', Hfs, Hq.
    split; [|auto].
    rewrite warning_logs_app.
    change (ev :: rest) with ([ev] ++ rest).
    rewrite warning_logs_app, Hlog. simpl. now rewrite <- !app_assoc.
Qed.


End Handlers.

(* ================================================================== *)
(** * What the engine writes *)
(* ================================================================== *)

Lemma append_inj (a b c : string) : (a ++ b)%string = (a ++ c)%string -> b = c.
Proof. induction a as [|x a IH]; simpl; [auto|]. intros [= E]. auto. Qed.

(** An entry asked for under a name that starts with ["dist/"] is stored
    under a name that starts with ["dist/"]. *)
Lemma dist_entry_name (e : FsEntry) (x : string) (z : ZipEntry) :
  In z (entry_of e ("dist/" ++ x)) ->
  exists nm, entryName z = ("dist/" ++ nm)%string.
Proof.
  intros Hz. apply entry_of_spec in Hz as [_ Hz].
  assert (Hd : plain ["dist"] = true) by reflexivity.
  assert (Hs : forall y, exists nm, stored_name ("dist/" ++ y) = ("dist/" ++ nm)%string).
  { intros y. exact (stored_name_under "dist" y Hd). }
  assert (Ht : exists y, trailingSlashIt ("dist/" ++ x) = ("dist/" ++ y)%string).
  { unfold trailingSlashIt. destruct (ends_with_slash _); [now exists x|].
    exists (x ++ "/")%string. reflexivity. }
  destruct (fileType (dirent e)).
  - destruct Hz as [-> _]. apply Hs.
  - destruct Hz as [-> _]. destruct Ht as (y & ->). apply Hs.
  - rewrite Hz. apply Hs.
  - destruct Hz.
Qed.

Lemma plain_under_dist (l : Path) : portable l = true -> plain ("dist" :: l) = true.
Proof. intros Hl. unfold plain, portable in *. simpl. now rewrite Hl. Qed.

(** When the path below the directory is portable, the name is ["dist/"] and
    that path, with a slash after it for a directory. *)
Lemma dist_entry_name_portable (e : FsEntry) (r : string) (rel : Path) (z : ZipEntry) :
  portable (r :: rel) = true ->
  In z (entry_of e ("dist/" ++ String.concat "/" (r :: rel))) ->
  entryName z
  = ("dist/" ++ String.concat "/" (r :: rel)
     ++ match fileType (dirent e) with DirectoryType => "/" | _ => "" end)%string.
Proof.
  intros Hp Hz. apply entry_of_spec in Hz as [_ Hz].
  pose proof (plain_under_dist _ Hp) as Hpl.
  destruct (stored_name_plain _ Hpl) as [Hs Hsd].
  assert (Ht : trailingSlashIt (String.concat "/" ("dist" :: r :: rel))
               = (String.concat "/" ("dist" :: r :: rel) ++ "/")%string).
  { apply trailingSlashIt_portable; [discriminate|].
    unfold plain in Hpl. now apply andb_true_iff in Hpl as [Hpl _]. }
  change ("dist/" ++ String.concat "/" (r :: rel))%string
    with (String.concat "/" ("dist" :: r :: rel)) in *.
  destruct (fileType (dirent e)).
  - destruct Hz as [-> _]. now rewrite Hs, append_nil_r.
  - destruct Hz as [-> _]. rewrite Ht, Hsd.
    change (String.concat "/" ("dist" :: r :: rel))
      with ("dist/" ++ String.concat "/" (r :: rel))%string.
    now rewrite append_assoc.
  - rewrite Hz, Hs. now rewrite append_nil_r.
  - destruct Hz.
Qed.

(** What a directory command for ["dist"] yields: for every entry below the
    directory, what the engine makes of it under ["dist/"] and its path
    below the directory. *)
Lemma directory_entries (files : FS) (dir : Path) (z : ZipEntry) :
  In z (entries_of_cmd files (Directory dir "dist")) <->
  exists e r rel,
    In e files /\ entry_path e = dir ++ r :: rel
    /\ In z (entry_of e ("dist/" ++ String.concat "/" (r :: rel))).
Proof.
  simpl. rewrite in_flat_map. split.
  - intros (e & He & Hz).
    destruct (strip_prefix dir (entry_path e)) as [[|r rel]|] eqn:Es; try easy.
    exists e, r, rel. split; [assumption|]. split; [|exact Hz].
    now apply strip_prefix_Some.
  - intros (e & r & rel & He & Hp & Hz). exists e. split; [assumption|].
    now rewrite Hp, strip_prefix_app.
Qed.

(** A regular file below [dir] is an entry of the directory command, under
    a name that starts with ["dist/"]. *)
Lemma directory_holds_file (files : FS) (dir : Path) (e : FsEntry) (r : string) (rel : Path) :
  In e files -> isFile (dirent e) = true -> entry_path e = dir ++ r :: rel ->
  exists nm,
    In {| entryName := ("dist/" ++ nm)%string; backing := Some (entry_path e);
          content := data e |}
       (entries_of_cmd files (Directory dir "dist"))
    /\ (portable (r :: rel) = true -> nm = String.concat "/" (r :: rel)).
Proof.
  intros Hin Hfile Hpath.
  destruct (stored_name_under "dist" (String.concat "/" (r :: rel)) eq_refl)
    as (nm & Hnm).
  change ("dist" ++ String "/" ?x)%string with ("dist/" ++ x)%string in Hnm.
  assert (Hentry : entry_of e ("dist/" ++ String.concat "/" (r :: rel))
                   = [ {| entryName := ("dist/" ++ nm)%string;
                          backing := Some (entry_path e); content := data e |} ]).
  { rewrite entry_of_file; [now rewrite Hnm | assumption |].
    rewrite Hnm. discriminate. }
  exists nm. split.
  - apply directory_entries. exists e, r, rel. rewrite Hentry. simpl. auto.
  - intros Hp.
    pose proof (dist_entry_name_portable e r rel
                  {| entryName := ("dist/" ++ nm)%string;
                     backing := Some (entry_path e); content := data e |} Hp) as E.
    rewrite Hentry in E. specialize (E (or_introl eq_refl)). cbn [entryName] in E.
    unfold isFile in Hfile. destruct (fileType (dirent e)); try discriminate.
    rewrite append_nil_r in E. now apply (append_inj "dist/") in E.
Qed.

Lemma truncated_keeps (p : Path) (files : FS) (e : FsEntry) :
  In e files -> entry_path e <> p -> In e (truncated p files).
Proof.
  intros Hin Hne. unfold truncated. apply in_or_app. left.
  apply filter_In. split; [assumption|]. apply negb_true_iff.
  destruct (path_eqb (entry_path e) p) eqn:E; [|reflexivity].
  apply path_eqb_eq in E. contradiction.
Qed.

Lemma truncated_creates (p : Path) (files : FS) :
  components p ->
  In (opened p) (truncated p files)
  /\ entry_path (opened p) = p /\ isFile (dirent (opened p)) = true.
Proof.
  intros Hp. split; [|split; [|reflexivity]].
  - unfold truncated. apply in_or_app. right. now left.
  - unfold entry_path, dirent_path. simpl. now apply path_join_dirname_basename.
Qed.



(** Opening either fails and changes nothing, or leaves the file system as it
    is, or leaves it with a fresh file at the path. *)
Lemma open_for_write_inl (p : Path) (files files' : FS) :
  open_for_write p files = inl files' ->
  files' = files \/ files' = truncated p files.
Proof.
  unfold open_for_write. destruct (lookup p files) as [e|].
  - destruct (fileType (dirent e)); intros [= <-]; auto.
  - destruct (existsb _ files); [discriminate|].
    destruct (is_directory (removelast p) files).
    + intros [= <-]. auto.
    + destruct (lookup (removelast p) files) as [dir|]; [|discriminate].
      destruct (fileType (dirent dir)); try discriminate.
      intros [= <-]. auto.
Qed.


Section Engine.
Context `{Host}.

Lemma zip_out_file_components (o : ResolvedOptions) (c : ResolvedConfig) :
  components (zip_out_file o c).
Proof.
  unfold zip_out_file, output_dir, working_dir.
  do 2 apply path_join_components. apply path_resolve_components.
Qed.

(** The file system after the stream has tried to open its file. *)
Lemma stream_open_fs (s : State) (p : Path) :
  output s = Some p ->
  fs (exec stream_open s) = fs s \/ fs (exec stream_open s) = truncated p (fs s).
Proof.
  intros Ho. unfold exec, stream_open. rewrite Ho.
  destruct (open_for_write p (fs s)) as [files'|err] eqn:E; [|now left].
  simpl. now apply open_for_write_inl.
Qed.

Lemma stream_open_queue (s : State) : queue (exec stream_open s) = queue s.
Proof.
  unfold exec, stream_open. destruct (output s) as [p|]; [|reflexivity].
  now destruct (open_for_write p (fs s)).
Qed.

(** Whether or not the stream has opened its file, every regular file that
    was below [dir] before the run has an entry in what a directory command
    for [dir] yields: under ["dist/"] and its own path below [dir], and with
    its own bytes unless it is the archive file itself, which the stream
    truncates. *)
Lemma directory_holds_original (files files' : FS) (zip dir : Path)
    (e : FsEntry) (r : string) (rel : Path) :
  components zip -> files' = files \/ files' = truncated zip files ->
  In e files -> isFile (dirent e) = true -> entry_path e = dir ++ r :: rel ->
  exists nm,
    In ("dist/" ++ nm)%string
       (map entryName (entries_of_cmd files' (Directory dir "dist")))
    /\ (portable (r :: rel) = true -> nm = String.concat "/" (r :: rel))
    /\ (entry_path e <> zip ->
        In {| entryName := ("dist/" ++ nm)%string;
              backing := Some (entry_path e); content := data e |}
           (entries_of_cmd files' (Directory dir "dist"))).
Proof.
  intros Hzip Hfiles Hin Hfile Hpath.
  assert (Hkept : entry_path e <> zip -> In e files').
  { intros Hne. destruct Hfiles as [->| ->]; [assumption|].
    now apply truncated_keeps. }
  destruct (path_eqb (entry_path e) zip) eqn:E.
  - apply path_eqb_eq in E.
    assert (Hsame : exists e', In e' files' /\ isFile (dirent e') = true
                               /\ entry_path e' = dir ++ r :: rel).
    { destruct Hfiles as [->| ->]; [now exists e|].
      destruct (truncated_creates zip files Hzip) as (Hnew & Hp & Hf).
      exists (opened zip). split; [assumption|]. split; [assumption|]. congruence. }
    destruct Hsame as (e' & Hin' & Hfile' & Hpath').
    destruct (directory_holds_file files' dir e' r rel Hin' Hfile' Hpath')
      as (nm & Hz & Hnm).
    exists nm. split; [|split; [assumption|]].
    + apply in_map_iff. eexists. split; [|exact Hz]. reflexivity.
    + intros Hne. contradiction.
  - assert (Hne : entry_path e <> zip).
    { intros E'. rewrite E', path_eqb_refl in E. discriminate. }
    destruct (directory_holds_file files' dir e r rel (Hkept Hne) Hfile Hpath)
      as (nm & Hz & Hnm).
    exists nm. split; [|split; [assumption|]].
    + apply in_map_iff. eexists. split; [|exact Hz]. reflexivity.
    + intros _. exact Hz.
Qed.

(** C10.  On the fast path the archive's first command is the directory
    entry for the output directory with the destination ["dist"], whatever
    the output directory is called: every regular file found below the
    output directory before the run is in the archive under a name that
    starts with ["dist/"], and every entry this command yields is made of an
    entry below the output directory and named that way.  What follows
    ["dist/"] is the path below the output directory whenever that path is
    portable (no backslash in it, which the engine would read as a
    separator), with a slash after it when the entry is a directory. *)
Theorem fast_path_nests_output_under_dist
    (o : ResolvedOptions) (c : ResolvedConfig) (files : FS) (u : U) :
  fast_path o = true ->
  let s := exec (zipOutput o c) (initial files u) in
  let s' := exec stream_open s in
  (exists cmds, queue s = Directory (output_dir c) "dist" :: cmds)
  /\ (forall e r rel,
        In e files -> isFile (dirent e) = true ->
        entry_path e = output_dir c ++ r :: rel ->
        exists nm,
          In ("dist/" ++ nm)%string (map entryName (produced s'))
          /\ (portable (r :: rel) = true -> nm = String.concat "/" (r :: rel)))
  /\ (forall files' z,
        In z (entries_of_cmd files' (Directory (output_dir c) "dist")) ->
        exists e r rel nm,
          In e files' /\ entry_path e = output_dir c ++ r :: rel
          /\ backing z = Some (output_dir c ++ r :: rel)
          /\ entryName z = ("dist/" ++ nm)%string
          /\ (portable (r :: rel) = true ->
              nm = (String.concat "/" (r :: rel)
                    ++ match fileType (dirent e) with
                       | DirectoryType => "/"
                       | _ => ""
                       end)%string)).
Proof.
  intros Hfast s s'.
  assert (Hq : exists cmds, queue s = Directory (output_dir c) "dist" :: cmds).
  { subst s. rewrite queue_of_run, (fast_run o c files u Hfast). simpl. eauto. }
  split; [exact Hq|]. split.
  - intros e r rel Hin Hfile Hpath. destruct Hq as (cmds & Hq).
    assert (Hfs : fs s' = files \/ fs s' = truncated (zip_out_file o c) files).
    { assert (Hfs0 : fs s = files) by (subst s; now rewrite zipOutput_exec).
      assert (Ho : output s = Some (zip_out_file o c))
        by (subst s; now rewrite zipOutput_exec).
      pose proof (stream_open_fs s (zip_out_file o c) Ho) as Hx.
      now rewrite Hfs0 in Hx. }
    destruct (directory_holds_original files (fs s') (zip_out_file o c)
                (output_dir c) e r rel (zip_out_file_components o c) Hfs Hin Hfile Hpath)
      as (nm & Hnm & Hp & _).
    exists nm. split; [|exact Hp].
    unfold produced. subst s'. rewrite stream_open_queue, Hq.
    unfold archive_entries. cbn [flat_map]. rewrite map_app.
    apply in_or_app. now left.
  - intros files' z Hz.
    apply directory_entries in Hz as (e & r & rel & He & Hp & Hz).
    destruct (dist_entry_name e _ z Hz) as (nm & Hnm).
    exists e, r, rel, nm. split; [assumption|]. split; [assumption|].
    split; [|split; [assumption|]].
    + apply entry_of_spec in Hz as [-> _]. now rewrite Hp.
    + intros Hport.
      pose proof (dist_entry_name_portable e r rel z Hport Hz) as E.
      rewrite Hnm in E. now apply (append_inj "dist/") in E.
Qed.

End Engine.

(* ================================================================== *)
(** * The default invocation *)
(* ================================================================== *)




Section DefaultInvocation.
Context `{Host}.





End DefaultInvocation.

(* ================================================================== *)
(** * Selection on the general path *)
(* ================================================================== *)

Section Selection.
Context `{Host}.

(** The calls of a run are those of the opening, of the enumeration under
    [loop_call_ok], and of the closing; a directory entry is only added on
    the fast path. *)
Lemma run_calls_cases (o : ResolvedOptions) (c : ResolvedConfig) (files : FS)
    (u : U) (x : Call) :
  In x (fst (run_calls o c files u)) ->
  (is_enumeration x = false /\ (fast_path o = false -> cmds_of_call x = hook_cmds [x]))
  \/ (exists pat cwd excl, x = CallGlobSync pat cwd excl)
  \/ loop_call_ok (working_dir c) (enumerated o c files) x.
Proof.
  unfold run_calls. destruct (fast_path o).
  - destruct (beforeClose o u) as [cmds u']. simpl.
    intros [<-|[<-|[<-|[<-|[<-|[]]]]]]; left; (split; [reflexivity | discriminate]).
  - destruct (loop_calls _ _ _ _) as [loop u1] eqn:Eloop.
    destruct (beforeClose o u1) as [cmds u2]. simpl.
    intros [<-|[<-|[<-|Hin]]].
    + left. split; [reflexivity|]. intros _. reflexivity.
    + left. split; [reflexivity|]. intros _. reflexivity.
    + right. left. eauto.
    + apply in_app_or in Hin as [Hin|[<-|[<-|[]]]].
      * right. right.
        pose proof (loop_calls_sound o (working_dir c) (enumerated o c files) u x) as Hs.
        rewrite Eloop in Hs. exact (Hs Hin).
      * left. split; [reflexivity|]. intros _. simpl. now rewrite app_nil_r.
      * left. split; [reflexivity|]. intros _. reflexivity.
Qed.

Lemma in_hook_cmds (tr : list Call) (x : Call) (cmd : ArchiveCmd) :
  In x tr -> In cmd (hook_cmds [x]) -> In cmd (hook_cmds tr).
Proof.
  intros Hx Hc. unfold hook_cmds in *. apply in_flat_map. exists x.
  split; [assumption|]. simpl in Hc. now rewrite app_nil_r in Hc.
Qed.

Lemma enumerated_not_excluded (o : ResolvedOptions) (c : ResolvedConfig)
    (files : FS) (d : Dirent) (q : string) :
  In d (enumerated o c files) -> In q (exclude_array o) ->
  glob_match q (path_relative (working_dir c) (dirent_path d)) = false.
Proof.
  intros Hd Hq. apply globSync_spec in Hd as (e & _ & <- & _ & Hx).
  rewrite pruned_false in Hx. fold (entry_path e).
  rewrite path_relative_segments.
  apply (Hx q _ Hq). apply prefixes_whole.
Qed.


(** C4, as the code has it.  A file whose path matches one of the exclude
    patterns (any one of them: the patterns are alternatives) is not among
    the enumerated entries, even when an include pattern matches it too: it
    is never handed to [handleFile] and never inserted by the assembler, and
    whatever entry of the finished archive is backed by it was put there by a
    command of the caller's own hooks.  A single exclude string gives the
    same run as the list that holds just that string. *)
Theorem excluded_file_is_left_to_the_hooks
    (o : ResolvedOptions) (c : ResolvedConfig) (files : FS) (u : U)
    (e : FsEntry) (q : string) :
  In q (exclude_array o) ->
  glob_match q (path_relative (working_dir c) (entry_path e)) = true ->
  let s := exec (zipOutput o c) (initial files u) in
  (forall d, In d (enumerated o c files) -> dirent_path d <> entry_path e)
  /\ (forall d handled cmds,
        In (CallHandleFile d handled cmds) (trace s) -> dirent_path d <> entry_path e)
  /\ (forall nm, ~ In (CallFile (entry_path e) nm) (trace s))
  /\ (forall files' z,
        In z (archive_entries files' (queue s)) ->
        backing z = Some (entry_path e) ->
        In z (archive_entries files' (hook_cmds (trace s))))
  /\ (forall x s0,
        zipOutput (with_exclude o (Str x)) c s0
        = zipOutput (with_exclude o (Arr [x])) c s0).
Proof.
  intros Hq Hm s.
  assert (Hgeneral : fast_path o = false).
  { destruct (fast_path o) eqn:E; [|reflexivity].
    apply fast_path_true_iff in E as (_ & E & _).
    unfold exclude_array in Hq. rewrite E in Hq. destruct Hq. }
  assert (Henum : forall d, In d (enumerated o c files) -> dirent_path d <> entry_path e).
  { intros d Hd E.
    pose proof (enumerated_not_excluded o c files d q Hd Hq) as Hn.
    rewrite E in Hn. congruence. }
  assert (Hloop : forall x, loop_call_ok (working_dir c) (enumerated o c files) x ->
            match x with
            | CallHandleFile d _ _ => dirent_path d <> entry_path e
            | CallFile p _ => p <> entry_path e
            | _ => True
            end).
  { intros x Hx. destruct x; simpl in *; auto.
    - now apply Henum.
    - destruct Hx as (d & Hd & _ & -> & _). now apply Henum. }
  subst s. rewrite trace_of_run, queue_of_run.
  split; [exact Henum|]. split; [|split; [|split]].
  - intros d handled cmds Hin.
    apply run_calls_cases in Hin as [[Hf _]|[(? & ? & ? & Hf)|Hok]];
      try discriminate.
    exact (Hloop _ Hok).
  - intros nm Hin.
    apply run_calls_cases in Hin as [[Hf _]|[(? & ? & ? & Hf)|Hok]];
      try discriminate.
    now apply (Hloop _ Hok).
  - intros files' z Hz Hback. unfold archive_entries in *.
    apply in_flat_map in Hz as (cmd & Hcmd & Hz).
    apply in_flat_map in Hcmd as (x & Hx & Hcmd).
    apply in_flat_map. exists cmd. split; [|assumption].
    pose proof (run_calls_cases o c files u x Hx) as [[_ Hh]|[(? & ? & ? & ->)|Hok]].
    + apply (in_hook_cmds _ x); [assumption|]. now rewrite <- Hh.
    + destruct Hcmd.
    + pose proof (Hloop _ Hok) as Hne. destruct x; simpl in Hok; try easy.
      * apply (in_hook_cmds _ (CallHandleFile dirEnt handled cmds)); [assumption|].
        simpl. now rewrite app_nil_r.
      * simpl in Hcmd. destruct Hcmd as [<-|[]]. cbn [entries_of_cmd] in Hz.
        destruct (lookup filePath files') as [e'|] eqn:El; [|easy].
        apply entry_of_spec in Hz as [Hz _].
        apply lookup_Some in El as [_ El]. congruence.
  - intros x s0. unfold zipOutput, fast_path. simpl.
    destruct (strict_eq (include o) "dist/**/*"); reflexivity.
Qed.


End Selection.

(* ================================================================== *)
(** * Decimal digits and two-decimal rendering *)
(* ================================================================== *)

Lemma digits_from_S (fuel : nat) (n : N) (acc : string) :
  digits_from (S fuel) n acc
  = if (n / 10 =? 0)%N then String (digit (n mod 10)) acc
    else digits_from fuel (n / 10) (String (digit (n mod 10)) acc).
Proof. reflexivity. Qed.

Lemma digits_from_acc (fuel : nat) (n : N) (acc : string) :
  digits_from fuel n acc = (digits_from fuel n "" ++ acc)%string.
Proof.
  revert n acc. induction fuel as [|fuel IH]; intros n acc; [reflexivity|].
  rewrite !digits_from_S. destruct (n / 10 =? 0)%N; [reflexivity|].
  rewrite IH, (IH _ (String _ "")), append_assoc. reflexivity.
Qed.

Lemma tenth_zero (n : N) : (n / 10 =? 0)%N = (n <? 10)%N.
Proof.
  destruct (N.ltb_spec n 10) as [Hlt|Hge].
  - apply N.eqb_eq. now apply N.div_small.
  - apply N.eqb_neq. intros E.
    pose proof (N.div_str_pos n 10). lia.
Qed.

Lemma log2_tenth (n : N) :
  (10 <= n)%N -> (N.to_nat (N.log2 (n / 10)) < N.to_nat (N.log2 n))%nat.
Proof.
  intros Hn.
  assert (Hm : (0 < n / 10)%N) by (apply N.div_str_pos; lia).
  assert (Hle : (2 * (n / 10) <= n)%N).
  { pose proof (N.Div0.mul_div_le n 10). lia. }
  apply N.log2_le_mono in Hle. rewrite N.log2_double in Hle by assumption. lia.
Qed.

(** Fuel beyond the binary length of the number changes nothing. *)
Lemma digits_from_fuel (f1 f2 : nat) (n : N) (acc : string) :
  (N.to_nat (N.log2 n) < f1)%nat -> (N.to_nat (N.log2 n) < f2)%nat ->
  digits_from f1 n acc = digits_from f2 n acc.
Proof.
  revert f2 n acc. induction f1 as [|f1 IH]; intros f2 n acc H1 H2; [lia|].
  destruct f2 as [|f2]; [lia|]. rewrite !digits_from_S, tenth_zero.
  destruct (N.ltb_spec n 10) as [Hlt|Hge]; [reflexivity|].
  pose proof (log2_tenth n Hge). apply IH; lia.
Qed.

Lemma decimal_digit (n : N) : (n < 10)%N -> decimal n = String (digit n) "".
Proof.
  intros Hn. unfold decimal. rewrite digits_from_S, tenth_zero.
  apply N.ltb_lt in Hn as Hb. rewrite Hb. now rewrite N.mod_small.
Qed.

Lemma decimal_step (n : N) :
  (10 <= n)%N -> decimal n = (decimal (n / 10) ++ String (digit (n mod 10)) "")%string.
Proof.
  intros Hn. unfold decimal at 1. rewrite digits_from_S, tenth_zero.
  apply N.ltb_ge in Hn as Hb. rewrite Hb. rewrite digits_from_acc. f_equal.
  unfold decimal. apply digits_from_fuel; [|lia]. now apply log2_tenth.
Qed.

Lemma length_app (a b : string) :
  String.length (a ++ b) = (String.length a + String.length b)%nat.
Proof. induction a; simpl; congruence. Qed.

Lemma decimal_nonempty (n : N) : (1 <= String.length (decimal n))%nat.
Proof.
  destruct (N.ltb_spec n 10) as [Hlt|Hge].
  - rewrite decimal_digit by assumption. simpl. lia.
  - rewrite decimal_step, length_app by assumption. simpl. lia.
Qed.

Lemma substring_head (a b : string) : substring 0 (String.length a) (a ++ b) = a.
Proof.
  induction a as [|c a IH]; simpl; [now destruct b | now rewrite IH].
Qed.

Lemma substring_tail (a b : string) (n : nat) :
  substring (String.length a) n (a ++ b) = substring 0 n b.
Proof. induction a as [|c a IH]; simpl; [reflexivity | exact IH]. Qed.

(** The slicing of [toFixed] for two fraction digits, on the digits of the
    hundredths [h], gives integer part, point and two digits. *)
Lemma slice_two_decimals (h : N) :
  (let m := decimal h in
   let k := String.length m in
   let m := if (k <=? 2)%nat then (zeros (2 + 1 - k) ++ m)%string else m in
   let k := String.length m in
   (substring 0 (k - 2) m ++ "." ++ substring (k - 2) 2 m)%string)
  = two_decimals h.
Proof.
  unfold two_decimals.
  destruct (N.ltb_spec h 10) as [H10|H10].
  - rewrite (decimal_digit h H10).
    rewrite (N.div_small h 100), (N.div_small h 10), (N.mod_small h 10) by lia.
    reflexivity.
  - rewrite (decimal_step h H10).
    destruct (N.ltb_spec h 100) as [H100|H100].
    + assert (Ht : (h / 10 < 10)%N) by (apply N.Div0.div_lt_upper_bound; lia).
      rewrite (decimal_digit _ Ht).
      rewrite (N.div_small h 100), (N.mod_small (h / 10) 10) by lia.
      reflexivity.
    + assert (Ht : (10 <= h / 10)%N) by (apply N.div_le_lower_bound; lia).
      rewrite (decimal_step _ Ht), N.Div0.div_div. change (10 * 10)%N with 100%N.
      rewrite append_assoc.
      change (String (digit ((h / 10) mod 10)) "" ++ String (digit (h mod 10)) "")%string
        with (String (digit ((h / 10) mod 10)) (String (digit (h mod 10)) "")).
      set (A := decimal (h / 100)). set (B := String _ (String _ "")).
      pose proof (decimal_nonempty (h / 100)) as HA. fold A in HA.
      cbv zeta. rewrite length_app.
      assert (Hk : ((String.length A + String.length B <=? 2) = false)%nat).
      { apply Nat.leb_gt. subst B. simpl. lia. }
      rewrite Hk, length_app.
      replace (String.length A + String.length B - 2)%nat with (String.length A)
        by (subst B; simpl; lia).
      rewrite substring_head, substring_tail. reflexivity.
Qed.

Lemma toFixed_two (x : Q) :
  Qle_bool 0 x = true ->
  Qle_bool (inject_Z (10 ^ 21)) x = false ->
  toFixed x 2 = two_decimals (Z.to_N (round_half_up (x * inject_Z 100))).
Proof.
  intros Hpos Hx. unfold toFixed. rewrite Hpos, Hx.
  change (inject_Z (10 ^ Z.of_nat 2)) with (inject_Z 100).
  change (2 =? 0)%nat with false. cbv iota.
  change (("" ++ ?m)%string) with m.
  apply slice_two_decimals.
Qed.

(* ================================================================== *)
(** * The size formatter *)
(* ================================================================== *)

Lemma scaled_num_den (z : Z) (k : nat) :
  Qnum (scaled z k) = z /\ Zpos (Qden (scaled z k)) = (1024 ^ Z.of_nat k)%Z.
Proof.
  induction k as [|k [IHn IHd]]; [split; reflexivity|].
  cbn [scaled]. unfold Qdiv, Qmult, Qinv. cbn [Qnum Qden].
  split; [lia|].
  rewrite Pos2Z.inj_mul, IHd, Nat2Z.inj_succ, Z.pow_succ_r by lia.
  change (Z.pos 1024) with 1024%Z. lia.
Qed.

Lemma scaled_ge (z t : Z) (k : nat) :
  Qle_bool (inject_Z t) (scaled z k) = (t * 1024 ^ Z.of_nat k <=? z)%Z.
Proof.
  destruct (scaled_num_den z k) as [Hn Hd].
  unfold Qle_bool. rewrite Hn, Hd. cbn [Qnum Qden inject_Z]. f_equal. lia.
Qed.

Lemma scale_loop_stops (fuel : nat) (z : Z) (k : nat) :
  (4 <= k + fuel)%nat -> (k <= 4)%nat ->
  exists index,
    scale_loop fuel (scaled z k) k = (scaled z index, index)
    /\ (k <= index <= 4)%nat
    /\ (index = 4%nat \/ z < 1024 ^ Z.of_nat (S index))%Z
    /\ (index = k \/ 1024 ^ Z.of_nat index <= z)%Z.
Proof.
  revert k. induction fuel as [|fuel IH]; intros k Hf Hk.
  - exists k. simpl. repeat split; auto; lia.
  - cbn [scale_loop].
    change (Qle_bool 1024 (scaled z k)) with (Qle_bool (inject_Z 1024) (scaled z k)).
    rewrite scaled_ge. change (List.length units - 1)%nat with 4%nat.
    destruct (Z.leb_spec (1024 * 1024 ^ Z.of_nat k) z) as [Hge|Hlt];
      destruct (Nat.ltb_spec k 4) as [Hk4|Hk4]; cbn [andb].
    + change (scaled z k / 1024)%Q with (scaled z (S k)).
      destruct (IH (S k)) as (index & Hrun & Hr & Hup & Hlow); [lia|lia|].
      exists index. split; [exact Hrun|]. split; [lia|]. split; [exact Hup|].
      right. destruct Hlow as [->|Hlow]; [|exact Hlow].
      rewrite Nat2Z.inj_succ, Z.pow_succ_r by lia. exact Hge.
    + exists k. repeat split; auto; lia.
    + exists k. split; [reflexivity|]. split; [lia|]. split; [|now left].
      right. rewrite Nat2Z.inj_succ, Z.pow_succ_r by lia. exact Hlt.
    + exists k. repeat split; auto; lia.
Qed.

Lemma round_scaled (n : N) (k : nat) :
  Z.to_N (round_half_up (scaled (Z.of_N n) k * inject_Z 100)) = hundredths n k.
Proof.
  destruct (scaled_num_den (Z.of_N n) k) as [Hn Hd].
  unfold round_half_up, Qfloor, Qplus, Qmult, hundredths.
  cbn [Qnum Qden inject_Z]. rewrite Hn.
  rewrite !Pos2Z.inj_mul, Hd.
  apply N2Z.inj. rewrite Z2N.id.
  - rewrite N2Z.inj_div, N2Z.inj_add, !N2Z.inj_mul, N2Z.inj_pow, nat_N_Z.
    change (Z.of_N 200) with 200%Z. change (Z.of_N 1024) with 1024%Z.
    change (Z.of_N 2) with 2%Z. f_equal; lia.
  - apply Z.div_pos; [|lia].
    pose proof (N2Z.is_nonneg n). nia.
Qed.

Lemma toFixed_exponent (x : Q) (f : nat) :
  Qle_bool 0 x = true -> Qle_bool (inject_Z (10 ^ 21)) x = true ->
  toFixed x f = Number_toString x.
Proof. intros Hpos Hx. unfold toFixed. now rewrite Hpos, Hx. Qed.

(** C7, as the code has it.  For every byte count [n] the formatter returns
    a string (it is a total function, so it is defined and deterministic):
    the unit is reached by dividing by 1024 while the value is at least 1024
    and a larger unit exists, so the value in the chosen unit is below 1024
    unless the unit is TB, and at least 1 unless the unit is B; the result is
    what [toFixed(2)] makes of that value, one space and the unit symbol.
    Below [1024^4 * 10^21] bytes that is the value rounded to hundredths and
    printed with exactly two decimals.  From there on the unit is TB and
    [toFixed] hands over to the number's own notation, with an exponent and
    without the two decimals.  The five values of the specification are
    instances. *)
Theorem formatFileSize_two_decimals_in_reached_unit :
  (forall n : N,
     exists index : nat,
       (index <= 4)%nat
       /\ (index = 4%nat \/ (n < 1024 ^ N.of_nat (S index))%N)
       /\ (index = 0%nat \/ (1024 ^ N.of_nat index <= n)%N)
       /\ formatFileSize (inject_Z (Z.of_N n))
          = (toFixed (scaled (Z.of_N n) index) 2 ++ " " ++ nth index units "")%string
       /\ ((n < 1024 ^ 4 * 10 ^ 21)%N ->
           toFixed (scaled (Z.of_N n) index) 2 = two_decimals (hundredths n index))
       /\ ((1024 ^ 4 * 10 ^ 21 <= n)%N ->
           index = 4%nat
           /\ toFixed (scaled (Z.of_N n) index) 2
              = Number_toString (scaled (Z.of_N n) index)))
  /\ formatFileSize 0 = "0.00 B"
  /\ formatFileSize 1024 = "1.00 KB"
  /\ formatFileSize 1536 = "1.50 KB"
  /\ formatFileSize (inject_Z (1024 ^ 4)) = "1.00 TB"
  /\ formatFileSize (inject_Z (1024 ^ 4 * 9999)) = "9999.00 TB".
Proof.
  split; [|repeat split; vm_compute; reflexivity].
  intros n.
  destruct (scale_loop_stops 5 (Z.of_N n) 0) as (index & Hrun & Hr & Hup & Hlow);
    [lia|lia|].
  assert (Hup' : index = 4%nat \/ (n < 1024 ^ N.of_nat (S index))%N).
  { destruct Hup as [Hup|Hup]; [now left | right].
    apply N2Z.inj_lt. now rewrite N2Z.inj_pow, nat_N_Z. }
  assert (Hlow' : index = 0%nat \/ (1024 ^ N.of_nat index <= n)%N).
  { destruct Hlow as [Hlow|Hlow]; [now left | right].
    apply N2Z.inj_le. now rewrite N2Z.inj_pow, nat_N_Z. }
  assert (Hpos : Qle_bool 0 (scaled (Z.of_N n) index) = true).
  { change 0%Q with (inject_Z 0). rewrite scaled_ge. apply Z.leb_le.
    pose proof (N2Z.is_nonneg n). lia. }
  exists index. split; [lia|]. split; [exact Hup'|]. split; [exact Hlow'|].
  split; [|split].
  - unfold formatFileSize. change (List.length units) with 5%nat.
    change (inject_Z (Z.of_N n)) with (scaled (Z.of_N n) 0). rewrite Hrun.
    f_equal. f_equal.
    assert (Hi : (index = 0 \/ index = 1 \/ index = 2 \/ index = 3 \/ index = 4)%nat) by lia.
    destruct Hi as [->|[->|[->|[->| ->]]]]; reflexivity.
  - intros Hn. rewrite toFixed_two, round_scaled; [reflexivity | exact Hpos |].
    rewrite scaled_ge. apply Z.leb_gt.
    apply N2Z.inj_lt in Hn. rewrite N2Z.inj_mul, !N2Z.inj_pow in Hn.
    change (Z.of_N 1024) with 1024%Z in Hn. change (Z.of_N 4) with 4%Z in Hn.
    change (Z.of_N 10) with 10%Z in Hn. change (Z.of_N 21) with 21%Z in Hn.
    destruct Hup as [->|Hup].
    + change (Z.of_nat 4) with 4%Z. lia.
    + rewrite Nat2Z.inj_succ, Z.pow_succ_r in Hup by lia.
      assert (0 < 1024 ^ Z.of_nat index)%Z by (apply Z.pow_pos_nonneg; lia).
      nia.
  - intros Hn.
    apply N2Z.inj_le in Hn. rewrite N2Z.inj_mul, !N2Z.inj_pow in Hn.
    change (Z.of_N 1024) with 1024%Z in Hn. change (Z.of_N 4) with 4%Z in Hn.
    change (Z.of_N 10) with 10%Z in Hn. change (Z.of_N 21) with 21%Z in Hn.
    assert (Hi : index = 4%nat).
    { destruct Hup as [Hup|Hup]; [exact Hup|].
      destruct (Nat.eq_dec index 4) as [E|Hne]; [exact E | exfalso].
      assert (Hle : (1024 ^ Z.of_nat (S index) <= 1024 ^ 4)%Z)
        by (apply Z.pow_le_mono_r; lia).
      assert (Hb : (1024 ^ 4 <= 1024 ^ 4 * 10 ^ 21)%Z) by (vm_compute; discriminate).
      lia. }
    split; [exact Hi|]. apply toFixed_exponent; [exact Hpos|].
    rewrite scaled_ge. apply Z.leb_le. subst index.
    change (Z.of_nat 4) with 4%Z. rewrite Z.mul_comm. exact Hn.
Qed.

(* ================================================================== *)
(** * The claims at concrete builds *)
(* ================================================================== *)


(** C4 as stated fails when a hook files an excluded file: the logo matches
    the exclude pattern, and is in the archive all the same, put there by
    [beforeClose]. *)
Lemma hook_files_an_excluded_file :
  let s' := build_with svg_by_hook project dist_files 0 in
  In "dist/**/*.svg" (exclude_array svg_by_hook)
  /\ glob_match "dist/**/*.svg"
       (path_relative (working_dir project) (entry_path logo_svg)) = true
  /\ In {| entryName := "dist/assets/logo.svg";
           backing := Some (entry_path logo_svg);
           content := "<svg></svg>" |}
        (produced s').
Proof. repeat match goal with |- _ /\ _ => split end; vm_compute; auto 10. Qed.

(** C6 as stated fails after a warning that rejects: the operation is not
    aborted, and a success is reported all the same.  With a refused file
    among the warnings the promise is rejected, yet the archive stays
    finalized with its queue, the later [ENOENT] warning is still logged,
    and when the stream closes the size of the archive is logged. *)
Lemma rejected_assembly_still_logs_its_size :
  let s := exec (zipOutput renaming project) (initial dist_files tt) in
  let s' := exec (for_of [Warning EACCES; Warning ENOENT; Close 1536]
                         (deliver renaming)) s in
  promise s = Some Pending
  /\ promise s' = Some (Rejected EACCES)
  /\ console s' = [LogErr ENOENT; LogText "out.zip size: 1.50 KB"]
  /\ queue s' = queue s /\ finalized s' = true.
Proof. repeat match goal with |- _ /\ _ => split end; vm_compute; auto 10. Qed.

(** C7 as stated fails for very large counts: at [1024^4 * 10^21] bytes the
    value part is printed in exponent notation, without a decimal point. *)
Lemma formatFileSize_exponent_notation :
  formatFileSize (inject_Z (1024 ^ 4 * 10 ^ 21)) = "1e+21 TB"
  /\ String.index 0 "." (formatFileSize (inject_Z (1024 ^ 4 * 10 ^ 21))) = None.
Proof. split; vm_compute; reflexivity. Qed.


(** The claims that carry a hypothesis, at the builds above. *)

(** C4 at the tests' output directory, with [exclude: "dist/**/*.svg"]. *)
Lemma excluded_file_witness :
  In "dist/**/*.svg" (exclude_array without_svg)
  /\ glob_match "dist/**/*.svg"
       (path_relative (working_dir project) (entry_path logo_svg)) = true
  /\ ~ In (CallFile (entry_path logo_svg) "dist/assets/logo.svg")
          (trace (exec (zipOutput without_svg project) (initial dist_files tt))).
Proof.
  assert (Hq : In "dist/**/*.svg" (exclude_array without_svg))
    by (simpl; auto).
  assert (Hm : glob_match "dist/**/*.svg"
                 (path_relative (working_dir project) (entry_path logo_svg)) = true)
    by reflexivity.
  split; [exact Hq|]. split; [exact Hm|].
  pose proof (excluded_file_is_left_to_the_hooks
                without_svg project dist_files tt logo_svg "dist/**/*.svg" Hq Hm)
    as (_ & _ & Hfile & _).
  apply Hfile.
Defined.

(** C3 with the renaming hook of the tests: [app.js] is taken over by the
    hook, the two other files are inserted under their relative paths. *)
Lemma handleFile_decides_witness :
  let s := exec (zipOutput renaming project) (initial dist_files tt) in
  fast_path renaming = false
  /\ map (fun a => (name (fst a), snd a)) (answered (trace s))
     = [("index.html", false); ("app.js", true); ("logo.svg", false)]
  /\ inserted (trace s)
     = [ (["project"; "dist"; "index.html"], "dist/index.html");
         (["project"; "dist"; "assets"; "logo.svg"], "dist/assets/logo.svg") ].
Proof.
  intros s. split; [reflexivity|]. split; [reflexivity|].
  pose proof (handleFile_decides_default_insertion renaming project dist_files tt
                eq_refl) as (_ & _ & Hhook & _).
  destruct (Hhook _ eq_refl) as (_ & Hins & _).
  fold s in Hins. rewrite Hins. reflexivity.
Defined.

(** C6 on the promise of a run: a vanished file and the close; a vanished
    file, a refused one and the close. *)
Lemma warnings_and_errors_witness :
  let s := exec (zipOutput without_svg project) (initial dist_files tt) in
  promise s = Some Pending
  /\ promise (exec (for_of ([Warning ENOENT] ++ [Close 1536]) (deliver without_svg)) s)
     = Some Fulfilled
  /\ promise (exec (for_of ([Warning ENOENT] ++ Warning EACCES :: [Close 1536])
                           (deliver without_svg)) s)
     = Some (Rejected EACCES).
Proof.
  intros s.
  assert (Hp : promise s = Some Pending) by reflexivity.
  assert (Hb : Forall benign [Warning ENOENT]).
  { constructor; [|constructor]. exists ENOENT. split; reflexivity. }
  pose proof (ENOENT_is_logged_other_failures_reject without_svg s Hp)
    as (_ & Hclose & _ & _ & Hfatal & _).
  split; [exact Hp|]. split.
  - apply Hclose. exact Hb.
  - apply Hfatal; [exact Hb|]. left. split; [reflexivity | discriminate].
Defined.


(** C10 with the default options and [outDir = "build"]. *)
Lemma fast_path_witness :
  let o := pluginOptions (vitePluginZip no_options) in
  let s := exec (zipOutput o project_build) (initial build_files tt) in
  fast_path o = true
  /\ In "dist/index.html" (map entryName (produced (exec stream_open s))).
Proof.
  intros o s. split; [reflexivity|].
  pose proof (fast_path_nests_output_under_dist o project_build build_files tt eq_refl)
    as (_ & Hfiles & _).
  destruct (Hfiles build_index_html "index.html" []) as (nm & Hin & Hnm).
  - simpl. auto.
  - reflexivity.
  - reflexivity.
  - rewrite (Hnm eq_refl) in Hin. exact Hin.
Defined.

(** C7 at 1536 bytes. *)
Lemma formatFileSize_witness :
  (1536 < 1024 ^ 4 * 10 ^ 21)%N
  /\ exists index : nat,
       (index <= 4)%nat
       /\ (index = 4%nat \/ (1536 < 1024 ^ N.of_nat (S index))%N)
       /\ (index = 0%nat \/ (1024 ^ N.of_nat index <= 1536)%N)
       /\ formatFileSize (inject_Z (Z.of_N 1536))
          = (two_decimals (hundredths 1536 index) ++ " " ++ nth index units "")%string.
Proof.
  split; [reflexivity|].
  destruct (proj1 formatFileSize_two_decimals_in_reached_unit 1536%N)
    as (index & Hi & Hup & Hlow & Hf & Htwo & _).
  exists index. rewrite Hf, (Htwo eq_refl). auto.
Defined.


(* ================================================================== *)
(** * The walk, the engine and the stream at concrete inputs *)
(* ================================================================== *)

(** [globSync] does not enter an excluded directory: with
    [exclude: "dist/assets"] the logo below it is not enumerated, though the
    include pattern matches it and the exclude pattern does not; and the
    empty pattern, which matches the working directory itself, leaves
    nothing. *)
Example excluded_directory_is_not_entered :
  glob_match "dist/**/*" "dist/assets/logo.svg" = true
  /\ glob_match "dist/assets" "dist/assets/logo.svg" = false
  /\ map name (globSync (Str "dist/**/*") ["project"] ["dist/assets"] dist_files)
     = ["index.html"; "app.js"]
  /\ globSync (Str "dist/**/*") ["project"] [""] dist_files = [].
Proof. repeat match goal with |- _ /\ _ => split end; vm_compute; auto 10. Qed.

(** The directory command of the fast path yields the sub-directory and the
    link beside the files. *)
Example directory_command_yields_directories_and_links :
  map entryName
      (entries_of_cmd dist_with_link (Directory (output_dir project) "dist"))
  = ["dist/index.html"; "dist/app.js"; "dist/assets/"; "dist/assets/logo.svg";
     "dist/latest.html"].
Proof. vm_compute. reflexivity. Qed.

(** For an output directory beside the root the relative path of a file
    starts with [..], which the engine cuts from the entry's name; and it
    reads a backslash as a separator. *)
Example engine_cuts_the_way_out :
  path_relative (working_dir project_outside)
                (output_dir project_outside ++ ["out.zip"])
  = "../out/out.zip"
  /\ stored_name "../out/out.zip" = "out/out.zip"
  /\ stored_name "/project/dist/app.js" = "project/dist/app.js"
  /\ stored_name "assets\logo.svg" = "assets/logo.svg".
Proof. repeat match goal with |- _ /\ _ => split end; vm_compute; auto 10. Qed.

(** On an empty disk the stream cannot open the archive's file: the turn of
    the engine ends with the stream's error, and the state is the one the
    synchronous body left. *)
Example missing_output_directory_fails_the_stream :
  let s := exec (zipOutput listed_include project) (initial [] tt) in
  engine_turn listed_include 0 s = (Crashed ENOENT, s).
Proof. vm_compute. reflexivity. Qed.

(* ================================================================== *)
(** * Further properties of the assembler *)
(* ================================================================== *)

Section MoreOfTheAssembler.
Context `{Host}.

(** X1.  Which user options lead to the fast path: [include] is left out or
    is the string ["dist/**/*"], [exclude] is left out or is the empty list,
    and [handleFile] is left out.  [zipName], [silent] and [beforeClose] play
    no part; the list [["dist/**/*"]] and the empty string as [exclude] lead
    to the general path. *)
Theorem user_options_on_the_fast_path (userOptions : UserOptions) :
  (fast_path (pluginOptions (vitePluginZip userOptions)) = true
   <-> (user_include userOptions = None
        \/ user_include userOptions = Some (Str "dist/**/*"))
       /\ (user_exclude userOptions = None
           \/ user_exclude userOptions = Some (Arr []))
       /\ user_handleFile userOptions = None)
  /\ (user_include userOptions = Some (Arr ["dist/**/*"]) ->
      fast_path (pluginOptions (vitePluginZip userOptions)) = false)
  /\ (user_exclude userOptions = Some (Str "") ->
      fast_path (pluginOptions (vitePluginZip userOptions)) = false).
Proof.
  split; [|split].
  - rewrite fast_path_true_iff. unfold vitePluginZip, nullish. simpl.
    destruct (user_include userOptions) as [i|];
      destruct (user_exclude userOptions) as [x|]; split;
      intros (Hi & Hx & Hh); (split; [|split]); try exact Hh;
      try (left; reflexivity); try reflexivity;
      try (right; now f_equal);
      try (destruct Hi as [Hi|Hi]; [discriminate | now injection Hi]);
      try (destruct Hx as [Hx|Hx]; [discriminate | now injection Hx]).
  - intros Hi. unfold fast_path, vitePluginZip, nullish. simpl. now rewrite Hi.
  - intros Hx. unfold fast_path, vitePluginZip, nullish. simpl. rewrite Hx.
    simpl. now rewrite andb_false_r.
Qed.

(** X3.  When a [handleFile] hook is configured, the entries it is called
    with are the regular files among the enumerated entries, each once and
    in the order of the enumeration; directories and other entries are never
    handed to it. *)
Theorem handleFile_gets_each_regular_file_once
    (o : ResolvedOptions) (h : HandleFile) (c : ResolvedConfig) (files : FS) (u : U) :
  handleFile o = Some h ->
  handed (trace (exec (zipOutput o c) (initial files u)))
  = filter isFile (enumerated o c files).
Proof.
  intros Hh. rewrite trace_of_run. unfold run_calls.
  assert (Hgeneral : fast_path o = false).
  { unfold fast_path. rewrite Hh. simpl. apply andb_false_r. }
  rewrite Hgeneral.
  pose proof (loop_calls_handed o h (working_dir c) (enumerated o c files) u Hh) as Hl.
  destruct (loop_calls _ _ _ _) as [loop u1].
  destruct (beforeClose o u1) as [cmds u2]. simpl in *.
  rewrite handed_app, Hl. simpl. apply app_nil_r.
Qed.

(** X4.  On the general path without a [handleFile] hook, the archive's
    queue is one file command for each regular file among the enumerated
    entries, in the order of the enumeration, followed by the commands of
    [beforeClose]; so the assembler inserts a path exactly when a regular
    file of the file system has it, an include pattern matches its path
    relative to the root, and no exclude pattern matches that path or a
    directory on the way to it: what lies below an excluded directory is not
    inserted, whatever the include patterns say. *)
Theorem without_handleFile_the_archive_is_the_selection
    (o : ResolvedOptions) (c : ResolvedConfig) (files : FS) (u : U) :
  handleFile o = None -> fast_path o = false ->
  let s := exec (zipOutput o c) (initial files u) in
  let cwd := working_dir c in
  queue s = map (default_insertion cwd) (filter isFile (enumerated o c files))
            ++ fst (beforeClose o u)
  /\ (forall p nm,
        In (p, nm) (inserted (trace s)) <->
        exists e, In e files /\ isFile (dirent e) = true /\ entry_path e = p
          /\ nm = path_relative cwd p
          /\ (exists i, In i (patterns_of (include o))
                        /\ glob_match i (path_relative cwd p) = true)
          /\ (forall x dir,
                In x (exclude_array o) ->
                In dir (prefixes (relative_segments cwd p)) ->
                glob_match x (String.concat "/" dir) = false)).
Proof.
  intros Hh Hgeneral s cwd. subst s.
  rewrite queue_of_run, trace_of_run. unfold run_calls.
  rewrite Hgeneral, (loop_calls_no_hook o (working_dir c) _ u Hh).
  destruct (beforeClose o u) as [cmds u2]. simpl. split.
  - rewrite flat_map_app. simpl. rewrite app_nil_r. f_equal.
    apply cmds_of_insertions.
  - intros p nm. rewrite inserted_app. simpl. rewrite app_nil_r.
    rewrite inserted_of_insertions, in_map_iff. fold cwd. split.
    + intros (d & [= Hp Hn] & Hd). apply filter_In in Hd as [Hd Hf].
      apply globSync_spec in Hd as (e & He & <- & Hi & Hx).
      fold (entry_path e) in Hp, Hn. fold cwd in Hi, Hx. rewrite Hp in *.
      exists e. split; [assumption|]. split; [assumption|].
      split; [assumption|]. split; [now rewrite Hn|]. split.
      * apply existsb_exists in Hi as (i & Hi & Hm). exists i.
        split; [assumption|]. now rewrite path_relative_segments.
      * now apply pruned_false.
    + intros (e & He & Hf & Hp & Hn & (i & Hi & Hm) & Hx). exists (dirent e).
      fold (entry_path e). rewrite Hp, Hn. split; [reflexivity|].
      apply filter_In. split; [|assumption].
      apply globSync_spec. exists e. fold cwd. rewrite Hp.
      split; [assumption|]. split; [reflexivity|]. split.
      * apply existsb_exists. exists i. split; [assumption|].
        unfold glob_matches. now rewrite <- path_relative_segments.
      * now apply pruned_false.
Qed.

(** X5.  A run of [zipOutput] does not depend on what an earlier run left
    behind: from two states with the same file system and the same state of
    the hooks it makes the same calls and leaves the same queue, the same
    write stream asked for, a finalized archive and a pending promise,
    whatever queue, promise, stream, console and trace it started from. *)
Theorem every_run_starts_afresh
    (o : ResolvedOptions) (c : ResolvedConfig) (s1 s2 : State) :
  fs s1 = fs s2 -> user s1 = user s2 ->
  let r1 := exec (zipOutput o c) s1 in
  let r2 := exec (zipOutput o c) s2 in
  (exists calls, trace r1 = trace s1 ++ calls /\ trace r2 = trace s2 ++ calls
                 /\ queue r1 = flat_map cmds_of_call calls)
  /\ queue r1 = queue r2 /\ user r1 = user r2 /\ output r1 = output r2
  /\ promise r1 = Some Pending /\ finalized r1 = true
  /\ fs r1 = fs s1 /\ console r1 = console s1.
Proof.
  intros Hfs Hu r1 r2. subst r1 r2. rewrite !zipOutput_exec. simpl.
  rewrite Hfs, Hu. split; [|repeat split].
  exists (fst (run_calls o c (fs s2) (user s2))). auto.
Qed.

End MoreOfTheAssembler.

(* ================================================================== *)
(** * Further properties of the handlers *)
(* ================================================================== *)

Section MoreOfTheHandlers.
Context `{Host}.

(** X2.  When the output stream closes after any warnings and errors, the
    console holds, in order, the [ENOENT] warnings and then, unless [silent]
    is set, the one line [<zipName> size: <formatted size>]; errors and other
    warnings log nothing.  The line is logged whatever has become of the
    promise: a promise that was rejected stays rejected, and the size line
    is printed all the same.  The file system and the archive's queue are
    not touched by the handlers. *)
Theorem close_logs_the_size_line_unless_silent
    (o : ResolvedOptions) (evs : list EngineEvent) (pointer : N) (s : State) :
  Forall (fun ev => forall n, ev <> Close n) evs ->
  let s' := exec (for_of (evs ++ [Close pointer]) (deliver o)) s in
  console s'
  = console s ++ warning_logs evs
    ++ (if silent o then [] else [summary_line o pointer])
  /\ (forall err, promise s = Some (Rejected err) -> promise s' = Some (Rejected err))
  /\ fs s' = fs s /\ queue s' = queue s.
Proof.
  intros Hev s'. subst s'. rewrite for_of_app, for_of_cons.
  destruct (warnings_console o evs s Hev) as (Hc & Hf & Hq).
  set (s1 := exec (for_of evs (deliver o)) s) in *.
  destruct (deliver_keeps_archive o (Close pointer) s1) as [Hf' Hq'].
  split; [|split; [|split]].
  - change (exec (for_of [] (deliver o)) ?x) with x.
    rewrite deliver_console, Hc, <- app_assoc. reflexivity.
  - intros err Hp.
    change (exec (for_of [] (deliver o)) ?x) with x.
    rewrite deliver_settled; unfold s1; rewrite events_settled; congruence.
  - change (exec (for_of [] (deliver o)) ?x) with x. congruence.
  - change (exec (for_of [] (deliver o)) ?x) with x. congruence.
Qed.

End MoreOfTheHandlers.

(* ================================================================== *)
(** * Entry names and paths *)
(* ================================================================== *)

Lemma strip_common_spec (a b : Path) :
  exists common, a = common ++ fst (strip_common a b)
                 /\ b = common ++ snd (strip_common a b).
Proof.
  revert b. induction a as [|x a IH]; intros b.
  - exists []. now destruct b.
  - destruct b as [|y b]; [now exists []|]. simpl.
    destruct (String.eqb x y) eqn:E.
    + apply String.eqb_eq in E. subst y.
      destruct (IH b) as (common & Ha & Hb). exists (x :: common).
      simpl. now rewrite <- Ha, <- Hb.
    + now exists [].
Qed.

Lemma split_slash_sep (x rest cur : string) :
  has_no_slash x = true ->
  split_slash cur (x ++ String "/" rest) = (cur ++ x)%string :: split_slash "" rest.
Proof.
  revert cur. induction x as [|c x IH]; intros cur Hx; simpl in *.
  - now rewrite append_nil_r.
  - apply andb_true_iff in Hx as [Hc Hx]. apply negb_true_iff in Hc.
    rewrite Hc, IH by assumption. now rewrite append_assoc.
Qed.

(** Cutting a joined list of components at the separators gives the
    components back. *)
Lemma segments_concat (l : list string) :
  l <> [] -> Forall (fun x => has_no_slash x = true) l ->
  segments (String.concat "/" l) = l.
Proof.
  intros Hne Hl. induction Hl as [|x l Hx Hl IH]; [contradiction|].
  destruct l as [|y l].
  - simpl. unfold segments. now rewrite split_slash_whole.
  - change (String.concat "/" (x :: y :: l))
      with (x ++ String "/" (String.concat "/" (y :: l)))%string.
    unfold segments. rewrite split_slash_sep by assumption.
    simpl append. f_equal. apply IH. discriminate.
Qed.

Lemma push_dotdot (q : Path) (up : list string) :
  fold_left push_segment (map (fun _ => "..") up) q
  = firstn (List.length q - List.length up) q.
Proof.
  revert q. induction up as [|x up IH]; intros q; simpl.
  - rewrite Nat.sub_0_r. symmetry. apply firstn_all.
  - change (push_segment q "..") with (removelast q).
    rewrite IH, removelast_firstn_len, firstn_firstn, length_firstn.
    f_equal. lia.
Qed.

Lemma push_components (down : list string) (q : Path) :
  components down -> fold_left push_segment down q = q ++ down.
Proof.
  intros Hd. revert q. induction Hd as [|x down Hx _ IH]; intros q; simpl.
  - now rewrite app_nil_r.
  - rewrite IH. pose proof (path_join_component q x Hx) as Hp.
    unfold path_join, segments in Hp.
    assert (Hs : has_no_slash x = true).
    { unfold is_component in Hx. repeat (apply andb_true_iff in Hx as [Hx ?]).
      assumption. }
    rewrite split_slash_whole in Hp by assumption. simpl in Hp.
    rewrite Hp, <- app_assoc. reflexivity.
Qed.

Lemma component_no_slash (x : string) : is_component x = true -> has_no_slash x = true.
Proof.
  unfold is_component. intros Hx.
  repeat (apply andb_true_iff in Hx as [Hx ?]). assumption.
Qed.

(** Joining a relative path back onto the directory it was taken from gives
    the path. *)
Lemma path_join_relative (cwd p : Path) :
  components p -> path_join cwd (path_relative cwd p) = p.
Proof.
  intros Hp. unfold path_relative.
  destruct (strip_common_spec cwd p) as (common & Hc & Hpp).
  destruct (strip_common cwd p) as [up down]. simpl in Hc, Hpp.
  assert (Hdown : components down).
  { rewrite Hpp in Hp. now apply Forall_app in Hp as [_ Hp]. }
  unfold path_join.
  destruct (map (fun _ : string => "..") up ++ down) as [|z l] eqn:El.
  - apply app_eq_nil in El as [Hu Hd]. apply map_eq_nil in Hu. subst up down.
    simpl. rewrite app_nil_r in Hc, Hpp.
    change (push_segment cwd "") with cwd. congruence.
  - rewrite <- El, segments_concat.
    + rewrite fold_left_app, push_dotdot, push_components by assumption.
      rewrite Hc at 1 2. rewrite List.length_app, Nat.add_sub, firstn_app.
      rewrite Nat.sub_diag, firstn_all. simpl. rewrite app_nil_r. congruence.
    + rewrite El. discriminate.
    + apply Forall_app. split.
      * apply Forall_forall. intros x Hx. apply in_map_iff in Hx as (? & <- & _).
        reflexivity.
      * eapply Forall_impl; [|exact Hdown]. apply component_no_slash.
Qed.

Section EntryNames.
Context `{Host}.

(** X6.  The name the default insertion gives an entry leads back to its
    file: joined onto the root it is the file's path.  So two entries that
    get the same default name are the same file, and the assembler never
    files two different files under one name. *)
Theorem default_entry_name_identifies_the_file
    (c : ResolvedConfig) (d d' : Dirent) :
  components (parentPath d) -> components (parentPath d') ->
  let cwd := working_dir c in
  let entry_name := fun x => path_relative cwd (path_join (parentPath x) (name x)) in
  path_join cwd (entry_name d) = path_join (parentPath d) (name d)
  /\ (entry_name d = entry_name d' ->
      path_join (parentPath d) (name d) = path_join (parentPath d') (name d')).
Proof.
  intros Hd Hd' cwd entry_name.
  assert (Hback : forall x, components (parentPath x) ->
            path_join cwd (entry_name x) = path_join (parentPath x) (name x)).
  { intros x Hx. apply path_join_relative. now apply path_join_components. }
  split; [now apply Hback|].
  intros E. rewrite <- (Hback d Hd), <- (Hback d' Hd'). now rewrite E.
Qed.

End EntryNames.

(* ================================================================== *)
(** * Further properties of the size formatter *)
(* ================================================================== *)

Lemma scale_loop_exit (fuel : nat) (size : Q) (index : nat) :
  (index <= 4)%nat -> (4 <= index + fuel)%nat ->
  let r := scale_loop fuel size index in
  (index <= snd r <= 4)%nat
  /\ Qle_bool 1024 (fst r) && (snd r <? List.length units - 1)%nat = false
  /\ fst r * inject_Z (1024 ^ Z.of_nat (snd r - index)) == size.
Proof.
  revert size index. induction fuel as [|fuel IH]; intros size index Hi Hf.
  - assert (index = 4%nat) by lia. subst index. simpl.
    split; [lia|]. split; [apply andb_false_r|]. unfold inject_Z. simpl. ring.
  - cbn [scale_loop].
    destruct (Qle_bool 1024 size && (index <? List.length units - 1)%nat) eqn:Ec.
    + apply andb_true_iff in Ec as [_ Hlt]. apply Nat.ltb_lt in Hlt.
      change (List.length units - 1)%nat with 4%nat in Hlt.
      destruct (IH (size / 1024) (S index)) as (Hr & Hcond & Hval); [lia|lia|].
      split; [lia|]. split; [exact Hcond|].
      replace (snd (scale_loop fuel (size / 1024) (S index)) - index)%nat
        with (S (snd (scale_loop fuel (size / 1024) (S index)) - S index))%nat
        by lia.
      rewrite Nat2Z.inj_succ, Z.pow_succ_r, inject_Z_mult by lia.
      rewrite (Qmult_comm (inject_Z 1024)), Qmult_assoc, Hval.
      unfold inject_Z. field.
    + simpl. split; [lia|]. split; [exact Ec|].
      rewrite Nat.sub_diag. unfold inject_Z. simpl. ring.
Qed.

(** X8.  For every size, also a fractional or a negative one, the loop of
    [formatFileSize] stops by its own condition within the turns the units
    allow: the value is below 1024 or the unit is the last one, the value
    times [1024^index] is the size that was given, and [units[index]] is one
    of the five symbols (the index never leaves the list). *)
Theorem scaling_stops_inside_the_units (size : Q) :
  let sz := fst (scale_loop (List.length units) size 0) in
  let index := snd (scale_loop (List.length units) size 0) in
  (index <= 4)%nat
  /\ (Qle_bool 1024 sz = false \/ index = 4%nat)
  /\ sz * inject_Z (1024 ^ Z.of_nat index) == size
  /\ In (nth index units "undefined") units
  /\ formatFileSize size = (toFixed sz 2 ++ " " ++ nth index units "undefined")%string.
Proof.
  intros sz index.
  destruct (scale_loop_exit (List.length units) size 0) as (Hr & Hcond & Hval);
    [lia | simpl; lia |].
  fold sz index in Hr, Hcond, Hval. rewrite Nat.sub_0_r in Hval.
  split; [lia|]. split; [|split; [exact Hval|split]].
  - apply andb_false_iff in Hcond as [Hc|Hc]; [now left | right].
    apply Nat.ltb_ge in Hc. change (List.length units - 1)%nat with 4%nat in Hc. lia.
  - apply nth_In. simpl. lia.
  - unfold formatFileSize. subst sz index.
    now destruct (scale_loop (List.length units) size 0).
Qed.

(** The unit of a byte count below the limit of the fixed notation is the one
    its magnitude fixes, and the value is printed from its hundredths. *)
Lemma formatFileSize_in_unit (n : N) (index : nat) :
  (n < 1024 ^ 4 * 10 ^ 21)%N -> (index <= 4)%nat ->
  (index = 4%nat \/ (n < 1024 ^ N.of_nat (S index))%N) ->
  (index = 0%nat \/ (1024 ^ N.of_nat index <= n)%N) ->
  formatFileSize (inject_Z (Z.of_N n))
  = (two_decimals (hundredths n index) ++ " " ++ nth index units "undefined")%string.
Proof.
  intros Hn Hi Hup Hlow.
  destruct (scale_loop_stops 5 (Z.of_N n) 0) as (k & Hrun & Hr & Hup' & Hlow');
    [lia|lia|].
  assert (Hk : k = index).
  { assert (Hupz : index = 4%nat \/ (Z.of_N n < 1024 ^ Z.of_nat (S index))%Z).
    { destruct Hup as [Hup|Hup]; [now left | right].
      apply N2Z.inj_lt in Hup. now rewrite N2Z.inj_pow, nat_N_Z in Hup. }
    assert (Hlowz : index = 0%nat \/ (1024 ^ Z.of_nat index <= Z.of_N n)%Z).
    { destruct Hlow as [Hlow|Hlow]; [now left | right].
      apply N2Z.inj_le in Hlow. now rewrite N2Z.inj_pow, nat_N_Z in Hlow. }
    assert (Hik : (index = 0 \/ index = 1 \/ index = 2 \/ index = 3 \/ index = 4)%nat) by lia.
    assert (Hkk : (k = 0 \/ k = 1 \/ k = 2 \/ k = 3 \/ k = 4)%nat) by lia.
    destruct Hik as [->|[->|[->|[->| ->]]]];
      destruct Hkk as [->|[->|[->|[->| ->]]]]; try reflexivity; exfalso;
      cbn in Hupz, Hlowz, Hup', Hlow'; lia. }
  subst k.
  unfold formatFileSize. change (List.length units) with 5%nat.
  change (inject_Z (Z.of_N n)) with (scaled (Z.of_N n) 0). rewrite Hrun.
  rewrite toFixed_two, round_scaled; [reflexivity| |].
  - change 0%Q with (inject_Z 0). rewrite scaled_ge. apply Z.leb_le.
    pose proof (N2Z.is_nonneg n). lia.
  - rewrite scaled_ge. apply Z.leb_gt.
    apply N2Z.inj_lt in Hn. rewrite N2Z.inj_mul, !N2Z.inj_pow in Hn.
    change (Z.of_N 1024) with 1024%Z in Hn. change (Z.of_N 4) with 4%Z in Hn.
    change (Z.of_N 10) with 10%Z in Hn. change (Z.of_N 21) with 21%Z in Hn.
    destruct Hup' as [->|Hup'].
    + change (Z.of_nat 4) with 4%Z. lia.
    + rewrite Nat2Z.inj_succ, Z.pow_succ_r in Hup' by lia.
      assert (0 < 1024 ^ Z.of_nat index)%Z by (apply Z.pow_pos_nonneg; lia).
      nia.
Qed.

(** X7.  A whole number [k] of a unit is printed as that number with two
    zeros: for [1 <= k < 1024] (any [k] below [10^21] in TB, and [0] in B),
    [formatFileSize (k * 1024^i)] is the digits of [k], [".00"], a space and
    the [i]-th unit symbol. *)
Theorem whole_multiples_print_exactly (k : N) (i : nat) :
  (i <= 4)%nat -> (i = 0%nat \/ 1 <= k)%N ->
  (i = 4%nat \/ k < 1024)%N -> (k < 10 ^ 21)%N ->
  formatFileSize (inject_Z (Z.of_N (k * 1024 ^ N.of_nat i)))
  = (decimal k ++ ".00 " ++ nth i units "undefined")%string.
Proof.
  intros Hi Hlow Hup Hk.
  assert (HD : (0 < 1024 ^ N.of_nat i)%N) by (apply N.neq_0_lt_0, N.pow_nonzero; lia).
  assert (HD4 : (1024 ^ N.of_nat i <= 1024 ^ 4)%N) by (apply N.pow_le_mono_r; lia).
  rewrite (formatFileSize_in_unit _ i).
  - assert (Hh : hundredths (k * 1024 ^ N.of_nat i) i = (100 * k)%N).
    { unfold hundredths. set (D := (1024 ^ N.of_nat i)%N) in *.
      symmetry. apply (N.div_unique _ _ _ D); lia. }
    rewrite Hh. unfold two_decimals.
    rewrite (N.mul_comm 100 k), N.div_mul by lia.
    replace (k * 100)%N with ((k * 10) * 10)%N by lia.
    rewrite N.div_mul, N.Div0.mod_mul by lia.
    rewrite N.Div0.mod_mul. rewrite append_assoc. reflexivity.
  - nia.
  - exact Hi.
  - destruct Hup as [Hup|Hup]; [now left | right].
    rewrite Nat2N.inj_succ, N.pow_succ_r'. nia.
  - destruct Hlow as [Hlow|Hlow]; [now left | right]. nia.
Qed.

(** X9.  Below the limit of the fixed notation the printed value lies
    between 1.00 and 1024.00 whenever the unit allows it: at least 1.00 in
    every unit above B, at most 1024.00 in every unit below TB, and in B it
    is the byte count itself.  The upper end is reached: the last byte
    before a full MB is printed as 1024.00 KB. *)
Theorem printed_value_within_the_unit (n : N) :
  (n < 1024 ^ 4 * 10 ^ 21)%N ->
  (exists (index : nat) (h : N),
     (index <= 4)%nat
     /\ formatFileSize (inject_Z (Z.of_N n))
        = (two_decimals h ++ " " ++ nth index units "undefined")%string
     /\ ((1 <= index)%nat -> (100 <= h)%N)
     /\ ((index < 4)%nat -> (h <= 102400)%N)
     /\ (index = 0%nat -> h = (100 * n)%N))
  /\ formatFileSize (inject_Z (1024 * 1024 - 1)) = "1024.00 KB".
Proof.
  intros Hn. split; [|vm_compute; reflexivity].
  destruct (scale_loop_stops 5 (Z.of_N n) 0) as (index & _ & Hr & Hup & Hlow);
    [lia|lia|].
  assert (Hup' : index = 4%nat \/ (n < 1024 ^ N.of_nat (S index))%N).
  { destruct Hup as [Hup|Hup]; [now left | right].
    apply N2Z.inj_lt. now rewrite N2Z.inj_pow, nat_N_Z. }
  assert (Hlow' : index = 0%nat \/ (1024 ^ N.of_nat index <= n)%N).
  { destruct Hlow as [Hlow|Hlow]; [now left | right].
    apply N2Z.inj_le. now rewrite N2Z.inj_pow, nat_N_Z. }
  exists index, (hundredths n index).
  split; [lia|]. split; [apply formatFileSize_in_unit; auto; lia|].
  unfold hundredths.
  assert (HD : (0 < 1024 ^ N.of_nat index)%N) by (apply N.neq_0_lt_0, N.pow_nonzero; lia).
  set (D := (1024 ^ N.of_nat index)%N) in *.
  split; [|split].
  - intros H1. destruct Hlow' as [->|Hlow']; [lia|].
    apply N.div_le_lower_bound; lia.
  - intros H4. destruct Hup' as [->|Hup']; [lia|].
    rewrite Nat2N.inj_succ, N.pow_succ_r' in Hup'. fold D in Hup'.
    apply N.lt_succ_r, N.Div0.div_lt_upper_bound. lia.
  - intros ->. subst D. change (1024 ^ N.of_nat 0)%N with 1%N.
    symmetry. apply (N.div_unique _ _ _ 1); lia.
Qed.

(* ================================================================== *)
(** * The earlier assembler and the present one *)
(* ================================================================== *)

Section EarlierAndPresent.
Context `{Host}.

Lemma for_of_ext {A : Type} (l : list A) (f g : A -> M unit) (s : State) :
  (forall x s0, f x s0 = g x s0) -> for_of l f s = for_of l g s.
Proof.
  intros Hfg. revert s. induction l as [|x l IH]; intros s; [reflexivity|].
  simpl. unfold bind. rewrite Hfg. destruct (g x s) as [[] s1]. apply IH.
Qed.

Lemma loop_calls_never_handled (o : ResolvedOptions) (cwd : Path) (l : list Dirent) (u : U) :
  handleFile o = Some never_handled ->
  snd (loop_calls o cwd l u) = u
  /\ flat_map cmds_of_call (fst (loop_calls o cwd l u))
     = map (default_insertion cwd) (filter isFile l)
  /\ inserted (fst (loop_calls o cwd l u))
     = map (fun d => (dirent_path d, path_relative cwd (dirent_path d)))
           (filter isFile l).
Proof.
  intros Hh. induction l as [|d l (IHu & IHq & IHi)]; [now repeat split|].
  simpl. unfold step_calls. rewrite Hh. unfold never_handled at 1.
  destruct (isFile d); simpl;
    destruct (loop_calls o cwd l u) as [t2 u2]; simpl in *.
  - rewrite IHq, IHi. now repeat split.
  - now repeat split.
Qed.

(** X10.  The present [zipOutput] and the earlier one (without fast path,
    with a handler that is always there).  With a [handleFile] configured
    the two are the same function of the state.  Without one, and on the
    general path, the present version leaves the queue, the default
    insertions, the hooks' state, the write stream and the promise that the
    earlier version leaves with its stand-in [() => false]. *)
Theorem present_assembler_agrees_with_the_earlier_one
    (o : ResolvedOptions) (c : ResolvedConfig) (s : State) :
  (forall h, handleFile o = Some h ->
     zipOutput o c s = Earlier.zipOutput (earlier_options o h) c s)
  /\ (handleFile o = None -> fast_path o = false ->
      let r := exec (zipOutput o c) s in
      let r' := exec (Earlier.zipOutput (earlier_options o never_handled) c) s in
      queue r = queue r' /\ user r = user r' /\ output r = output r'
      /\ promise r = promise r' /\ finalized r = finalized r'
      /\ exists calls calls',
           trace r = trace s ++ calls /\ trace r' = trace s ++ calls'
           /\ inserted calls = inserted calls').
Proof.
  assert (Hsome : forall o' h, handleFile o' = Some h ->
            zipOutput o' c s = Earlier.zipOutput (earlier_options o' h) c s).
  { intros o' h Hh.
    assert (Hgeneral : fast_path o' = false).
    { unfold fast_path. rewrite Hh. simpl. apply andb_false_r. }
    unfold zipOutput, Earlier.zipOutput. rewrite Hgeneral.
    unfold bind. simpl.
    match goal with
    | |- context [for_of ?l (process_entry o' ?cwd) ?s0] =>
        rewrite (for_of_ext l (process_entry o' cwd)
                   (Earlier.process_entry (earlier_options o' h) cwd) s0)
    end.
    - reflexivity.
    - intros x s0. unfold process_entry, Earlier.process_entry. rewrite Hh.
      reflexivity. }
  split; [intros h Hh; now apply Hsome|].
  intros Hnone Hgeneral r r'.
  set (o' := {| include := include o; exclude := exclude o; zipName := zipName o;
                silent := silent o; handleFile := Some never_handled;
                beforeClose := beforeClose o |}).
  assert (Hr' : r' = exec (zipOutput o' c) s).
  { subst r'. unfold exec. now rewrite (Hsome o' never_handled eq_refl). }
  assert (Hgeneral' : fast_path o' = false).
  { unfold fast_path, o'. simpl. apply andb_false_r. }
  rewrite Hr'. subst r. rewrite !zipOutput_exec. simpl.
  unfold run_calls. rewrite Hgeneral, Hgeneral'.
  unfold enumerated, exclude_array. simpl.
  rewrite (loop_calls_no_hook o _ _ _ Hnone).
  destruct (loop_calls_never_handled o' (working_dir c)
              (globSync (include o) (working_dir c) (patterns_of (exclude o)) (fs s))
              (user s) eq_refl) as (Hu & Hq & Hi).
  destruct (loop_calls o' _ _ _) as [loop u1]. simpl in Hu, Hq, Hi. subst u1.
  destruct (beforeClose o (user s)) as [cmds u2]. simpl.
  split; [|split; [reflexivity|split; [reflexivity|split; [reflexivity|split; [reflexivity|]]]]].
  - rewrite !flat_map_app, Hq. simpl. f_equal. apply cmds_of_insertions.
  - eexists. eexists. split; [reflexivity|]. split; [reflexivity|].
    pose proof (inserted_of_insertions (working_dir c)) as Hi2.
    unfold inserted in Hi, Hi2 |- *. simpl.
    rewrite !flat_map_app, Hi, Hi2. reflexivity.
Qed.

End EarlierAndPresent.

(* ================================================================== *)
(** * The two paths side by side *)
(* ================================================================== *)

Section TwoPathsSideBySide.
Context `{Host}.

(** X11.  When the output directory is called [dist], the fast path names
    the files as the general path does.  Every entry the directory command of
    the fast path yields is made of an entry below the output directory, of
    a kind the engine supports.  For a regular file it has the bytes of the
    file and, the path being portable, the name is the path relative to the
    root, which is the name the default insertion asks for and the engine
    stores unchanged.  Beside the files the command yields the
    sub-directories, with a slash after the name, and the links; these the
    loop of the general path passes over. *)
Theorem fast_path_names_as_the_general_path_in_dist
    (c : ResolvedConfig) (files : FS) (z : ZipEntry) :
  outDir (build c) = "dist" ->
  In z (entries_of_cmd files (Directory (output_dir c) "dist")) ->
  exists e r rel,
    let asked := String.concat "/" ("dist" :: r :: rel) in
    In e files /\ backing z = Some (entry_path e)
    /\ entry_path e = working_dir c ++ "dist" :: r :: rel
    /\ default_insertion (working_dir c) (dirent e) = File (entry_path e) asked
    /\ match fileType (dirent e) with
       | RegularFile =>
           content z = data e
           /\ (portable (r :: rel) = true ->
               entryName z = asked /\ stored_name asked = asked)
       | DirectoryType =>
           portable (r :: rel) = true -> entryName z = (asked ++ "/")%string
       | SymbolicLink => portable (r :: rel) = true -> entryName z = asked
       | OtherType => False
       end
    /\ (isFile (dirent e) = false ->
        forall o u, step_calls o (working_dir c) (dirent e) u = ([], u)).
Proof.
  intros Hout Hz.
  assert (Hdir : output_dir c = working_dir c ++ ["dist"]).
  { unfold output_dir. rewrite Hout. now apply path_join_component. }
  apply directory_entries in Hz as (e & r & rel & He & Hp & Hz).
  exists e, r, rel. cbv zeta.
  assert (Hpath : entry_path e = working_dir c ++ "dist" :: r :: rel).
  { rewrite Hp, Hdir, <- app_assoc. reflexivity. }
  pose proof (dist_entry_name_portable e r rel z) as Hname.
  pose proof (entry_of_spec e _ z Hz) as [Hback Hkind].
  split; [assumption|]. split; [assumption|]. split; [assumption|].
  split; [|split].
  - unfold default_insertion. fold (entry_path e). f_equal.
    rewrite Hpath. apply path_relative_below.
  - assert (Hasked : String.concat "/" ("dist" :: r :: rel)
                     = ("dist/" ++ String.concat "/" (r :: rel))%string)
      by reflexivity.
    destruct (fileType (dirent e)).
    + destruct Hkind as [_ Hc]. split; [assumption|]. intros Hport.
      rewrite (Hname Hport Hz), append_nil_r. split; [now rewrite Hasked|].
      apply stored_name_plain. now apply plain_under_dist.
    + intros Hport. rewrite (Hname Hport Hz), Hasked. now rewrite append_assoc.
    + intros Hport. rewrite (Hname Hport Hz), append_nil_r. now rewrite Hasked.
    + exact Hkind.
  - intros Hf o u. unfold step_calls. now rewrite Hf.
Qed.

End TwoPathsSideBySide.

(* ================================================================== *)
(** * The further properties at concrete builds *)
(* ================================================================== *)

(** X2 on a run that a refused file has failed. *)
Lemma close_logs_witness :
  let s := exec (on_warning EACCES)
                (exec (zipOutput renaming project) (initial dist_files tt)) in
  let s' := exec (for_of ([Warning ENOENT] ++ [Close 1536]) (deliver renaming)) s in
  promise s = Some (Rejected EACCES)
  /\ promise s' = Some (Rejected EACCES)
  /\ console s' = [LogErr ENOENT; LogText "out.zip size: 1.50 KB"].
Proof.
  intros s s'.
  assert (Hev : Forall (fun ev => forall n, ev <> Close n) [Warning ENOENT]).
  { constructor; [discriminate | constructor]. }
  pose proof (close_logs_the_size_line_unless_silent renaming [Warning ENOENT] 1536 s Hev)
    as (Hc & Hp & _).
  split; [reflexivity|]. split.
  - apply Hp. reflexivity.
  - fold s' in Hc. rewrite Hc. reflexivity.
Defined.

(** X3 with the renaming hook of the tests. *)
Lemma handleFile_witness :
  map name (handed (trace (exec (zipOutput renaming project) (initial dist_files tt))))
  = ["index.html"; "app.js"; "logo.svg"].
Proof.
  rewrite (handleFile_gets_each_regular_file_once renaming
             (fun d u =>
                if String.eqb (name d) "app.js"
                then (true, [File (dirent_path d) "custom/renamed-app.js"], u)
                else (false, [], u))
             project dist_files tt eq_refl).
  reflexivity.
Defined.

(** X4 with [exclude: "dist/**/*.svg"]. *)
Lemma selection_witness :
  queue (exec (zipOutput without_svg project) (initial dist_files tt))
  = [ File ["project"; "dist"; "index.html"] "dist/index.html";
      File ["project"; "dist"; "app.js"] "dist/app.js" ].
Proof.
  pose proof (without_handleFile_the_archive_is_the_selection
                without_svg project dist_files tt eq_refl eq_refl) as [Hq _].
  rewrite Hq. reflexivity.
Defined.

(** X5: a second run, started where a first one ended. *)
Lemma second_run_witness :
  let first := exec (zipOutput renaming project) (initial dist_files tt) in
  queue (exec (zipOutput renaming project) first) = queue first.
Proof.
  intros first.
  pose proof (every_run_starts_afresh renaming project first (initial dist_files tt)
                eq_refl eq_refl) as (_ & Hq & _).
  exact Hq.
Defined.

(** X6 for the logo and the page of the tests. *)
Lemma entry_name_witness :
  path_join (working_dir project)
            (path_relative (working_dir project)
               (path_join (parentPath (dirent logo_svg)) (name (dirent logo_svg))))
  = ["project"; "dist"; "assets"; "logo.svg"].
Proof.
  assert (Hc : components (parentPath (dirent logo_svg))).
  { repeat constructor. }
  pose proof (default_entry_name_identifies_the_file project (dirent logo_svg)
                (dirent logo_svg) Hc Hc) as [Hback _].
  rewrite Hback. reflexivity.
Defined.

(** X7 at 512 KB. *)
Lemma whole_multiples_witness :
  formatFileSize (inject_Z (Z.of_N (512 * 1024 ^ N.of_nat 1))) = "512.00 KB".
Proof.
  rewrite (whole_multiples_print_exactly 512 1).
  - reflexivity.
  - lia.
  - right. lia.
  - right. lia.
  - reflexivity.
Defined.

(** X9 at 1234567 bytes. *)
Lemma printed_value_witness :
  exists (index : nat) (h : N),
    (index <= 4)%nat
    /\ formatFileSize (inject_Z (Z.of_N 1234567))
       = (two_decimals h ++ " " ++ nth index units "undefined")%string
    /\ ((1 <= index)%nat -> (100 <= h)%N)
    /\ ((index < 4)%nat -> (h <= 102400)%N)
    /\ (index = 0%nat -> h = (100 * 1234567)%N).
Proof.
  apply (proj1 (printed_value_within_the_unit 1234567 eq_refl)).
Defined.

(** X11 for the page of the tests. *)
Lemma same_names_witness :
  exists e r rel,
    In e dist_files
    /\ Some ["project"; "dist"; "index.html"] = Some (entry_path e)
    /\ entry_path e = working_dir project ++ "dist" :: r :: rel
    /\ default_insertion (working_dir project) (dirent e)
       = File (entry_path e) (String.concat "/" ("dist" :: r :: rel)).
Proof.
  destruct (fast_path_names_as_the_general_path_in_dist project dist_files
              {| entryName := "dist/index.html";
                 backing := Some ["project"; "dist"; "index.html"];
                 content := "<html></html>" |} eq_refl)
    as (e & r & rel & He & Hb & Hp & Hd & _).
  - simpl. auto.
  - exists e, r, rel. auto.
Defined.
